(** * gitosis/my_fnmatch.py: shell-style patterns, translated to regular
      expressions and matched through a compiled-pattern cache.

    The development embeds [translate], [fnmatchcase], [fnmatch] and
    [filter] of [gitosis/my_fnmatch.py], together with the part of Python's
    [re] module (tokenizer, parser and matcher of [sre_parse]/[_sre]) that
    the regular expressions produced by [translate] exercise. *)

From Stdlib Require Import Ascii String List Bool Arith Lia.
From stdpp Require Import gmap strings.
Import ListNotations.

Set Default Proof Using "Type".

(** ** Python values *)

(** A Python 2 [str] is a sequence of 8-bit characters. *)
Abbreviation pystr := (list ascii).

(** String literals of the source, as [pystr]. *)
Notation "'str' s" := (list_ascii_of_string s%string)
  (at level 9, s at level 0, only parsing).

Definition is_char (c d : ascii) : bool := Ascii.eqb c d.

(** Exceptions the modelled code can raise. *)
Inductive exn : Type :=
| IndexError     (* string index out of range *)
| KeyError       (* missing dictionary key *)
| re_error.      (* sre_constants.error *)

(** Why the model gives no answer: a recursion ran out of fuel, or the
    regular expression uses syntax of [re] that is not embedded here. *)
Inductive limit : Type :=
| OutOfFuel
| OutOfFragment.

(** The outcome of running a piece of Python. *)
Inductive result (A : Type) : Type :=
| Return (a : A)
| Raise (e : exn)
| Stuck (why : limit).
Arguments Return {A} a.
Arguments Raise {A} e.
Arguments Stuck {A} why.

Definition rbind {A B} (r : result A) (k : A -> result B) : result B :=
  match r with
  | Return a => k a
  | Raise e => Raise e
  | Stuck w => Stuck w
  end.

Global Instance result_ret : MRet result := fun A a => Return a.
Global Instance result_bind : MBind result := fun A B k r => rbind r k.

(** Code points and character classes of ASCII. *)
Definition ord (c : ascii) : nat := nat_of_ascii c.

Definition in_range (lo hi : nat) (c : ascii) : bool :=
  (lo <=? ord c) && (ord c <=? hi).

Definition is_digit (c : ascii) : bool := in_range 48 57 c.
Definition is_octdigit (c : ascii) : bool := in_range 48 55 c.
Definition is_upper (c : ascii) : bool := in_range 65 90 c.
Definition is_lower (c : ascii) : bool := in_range 97 122 c.
Definition is_alnum (c : ascii) : bool := is_lower c || is_upper c || is_digit c.

Definition newline : ascii := "010"%char.
Definition backslash : ascii := "\"%char.

(** [str.lower()] of a Python 2 byte string in the C locale: the letters
    [A]..[Z] are shifted to [a]..[z], every other character is kept. *)
Definition lower_char (c : ascii) : ascii :=
  if is_upper c then ascii_of_nat (ord c + 32) else c.

Definition lower (s : pystr) : pystr := map lower_char s.

(** [s.replace(old, new)] for a one-character [old]. *)
Definition replace (s : pystr) (old : ascii) (new : pystr) : pystr :=
  flat_map (fun c => if is_char c old then new else [c]) s.

(** ** The part of Python's [re] that [translate] targets *)

Module re.

(** [re.escape]: every non-alphanumeric character gets a backslash; the NUL
    character becomes the octal escape [\000]. *)
Definition escape_char (c : ascii) : pystr :=
  if is_alnum c then [c]
  else if is_char c "000" then str "\000"
  else [backslash; c].

Definition escape (pattern : pystr) : pystr := flat_map escape_char pattern.

(** [sre_parse.Tokenizer]: a backslash and the character after it form one
    token; a backslash at the end of the pattern is an error. *)
Inductive token : Type :=
| Ch (c : ascii)
| Esc (c : ascii).

Fixpoint tokenize (s : pystr) : result (list token) :=
  match s with
  | [] => Return []
  | c :: s' =>
      if is_char c backslash then
        match s' with
        | [] => Raise re_error            (* bogus escape (end of line) *)
        | e :: s'' => ts ← tokenize s''; Return (Esc e :: ts)
        end
      else ts ← tokenize s'; Return (Ch c :: ts)
  end.

(** Parsed patterns: the operators of [sre_constants] that occur. *)
Inductive set_item : Type :=
| SetLiteral (c : ascii)
| SetRange (lo hi : ascii).

Inductive item : Type :=
| LITERAL (c : ascii)
| ANY                                     (* [.] without DOTALL *)
| IN (negate : bool) (set : list set_item).

Inductive op : Type :=
| Once (i : item)
| MAX_REPEAT (i : item)                   (* [i*]: 0 to MAXREPEAT times *)
| AT_END.                                 (* [$] without MULTILINE *)

Abbreviation pattern := (list op).

(** [_class_escape]: inside a set, a backslash before a non-alphanumeric
    character gives that character. *)
Definition class_code (t : token) : result ascii :=
  match t with
  | Ch c => Return c
  | Esc c => if is_alnum c then Stuck OutOfFragment else Return c
  end.

Definition is_tok (t : token) (c : ascii) : bool :=
  match t with
  | Ch d => is_char d c
  | Esc _ => false
  end.

(** The loop over the members of a set, after [[] and an optional [^].
    [set] holds the members read so far; a []] closes the set only when
    at least one member has been read. *)
Fixpoint parse_set (source : list token) (set : list set_item)
  : result (list set_item * list token) :=
  match source with
  | [] => Raise re_error                  (* unexpected end of regular expression *)
  | this :: source1 =>
      if is_tok this "]" && negb (match set with [] => true | _ => false end)
      then Return (set, source1)
      else
        code1 ← class_code this;
        match source1 with
         | dash :: source2 =>
             if is_tok dash "-" then
               match source2 with
               | [] => Raise re_error     (* unexpected end of regular expression *)
               | that :: source3 =>
                   if is_tok that "]"
                   then Return (set ++ [SetLiteral code1; SetLiteral "-"], source3)
                   else
                     code2 ← class_code that;
                     if ord code2 <? ord code1
                     then Raise re_error  (* bad character range *)
                     else parse_set source3 (set ++ [SetRange code1 code2])
               end
             else parse_set source1 (set ++ [SetLiteral code1])
        | [] => parse_set source1 (set ++ [SetLiteral code1])
        end
  end.

(** [_escape] outside a set: [\0] starts an octal escape of up to three
    digits; a backslash before a non-alphanumeric character gives that
    character. *)
Definition octal_value (ds : list ascii) : nat :=
  fold_left (fun v d => 8 * v + (ord d - 48)) ds 0.

Definition take_octal (source : list token) : list ascii * list token :=
  match source with
  | Ch d1 :: source1 =>
      if is_octdigit d1 then
        match source1 with
        | Ch d2 :: source2 =>
            if is_octdigit d2 then ([d1; d2], source2) else ([d1], source1)
        | _ => ([d1], source1)
        end
      else ([], source)
  | _ => ([], source)
  end.

Definition parse_escape (c : ascii) (source : list token)
  : result (item * list token) :=
  if is_char c "0" then
    let '(ds, source') := take_octal source in
    Return (LITERAL (ascii_of_nat (octal_value ds mod 256)), source')
  else if is_alnum c then Stuck OutOfFragment
  else Return (LITERAL c, source).

(** The item a [*] applies to, and what it becomes. *)
Definition repeat_last (subpattern : pattern) : result pattern :=
  match rev subpattern with
  | [] => Raise re_error                  (* nothing to repeat *)
  | AT_END :: _ => Raise re_error         (* nothing to repeat *)
  | MAX_REPEAT _ :: _ => Raise re_error   (* multiple repeat *)
  | Once i :: before => Return (rev before ++ [MAX_REPEAT i])
  end.

(** [sre_parse._parse], for one branch without groups. *)
Fixpoint _parse (fuel : nat) (source : list token) (subpattern : pattern)
  : result pattern :=
  match source with
  | [] => Return subpattern
  | this :: source1 =>
      match fuel with
      | O => Stuck OutOfFuel
      | S fuel =>
          match this with
          | Esc c =>
              '(code, source2) ← parse_escape c source1;
              _parse fuel source2 (subpattern ++ [Once code])
          | Ch c =>
              if is_char c "[" then
                let '(negate, source2) :=
                  match source1 with
                  | t :: rest => if is_tok t "^" then (true, rest) else (false, source1)
                  | [] => (false, source1)
                  end in
                '(set, source3) ← parse_set source2 [];
                _parse fuel source3 (subpattern ++ [Once (IN negate set)])
              else if is_char c "*" then
                subpattern' ← repeat_last subpattern;
                match source1 with
                 | t :: _ =>
                     if is_tok t "?" then Stuck OutOfFragment   (* MIN_REPEAT *)
                     else _parse fuel source1 subpattern'
                | [] => _parse fuel source1 subpattern'
                end
              else if is_char c "." then
                _parse fuel source1 (subpattern ++ [Once ANY])
              else if is_char c "$" then
                _parse fuel source1 (subpattern ++ [AT_END])
              else if existsb (is_char c) (str "+?{()|^") then
                Stuck OutOfFragment
              else _parse fuel source1 (subpattern ++ [Once (LITERAL c)])
          end
      end
  end.

(** [sre_parse.parse] followed by code generation: the compiled pattern is
    represented by its parsed form. *)
Definition parse (p : pystr) : result pattern :=
  source ← tokenize p; _parse (length source) source [].

(** Matching one character. *)
Definition set_item_matches (x : set_item) (c : ascii) : bool :=
  match x with
  | SetLiteral d => is_char c d
  | SetRange lo hi => (ord lo <=? ord c) && (ord c <=? ord hi)
  end.

Definition item_matches (i : item) (c : ascii) : bool :=
  match i with
  | LITERAL d => is_char c d
  | ANY => negb (is_char c newline)
  | IN negate set => xorb negate (existsb (fun x => set_item_matches x c) set)
  end.

(** [$]: at the end of the string, or just before a newline that ends it. *)
Definition at_end (s : pystr) : bool :=
  match s with
  | [] => true
  | [c] => is_char c newline
  | _ => false
  end.

(** The backtracking matcher, anchored at the start of [s] as [match] is:
    does the pattern match a prefix of [s]?  A repeat tries the longest
    run first. *)
Fixpoint matches_here (p : pattern) (s : pystr) {struct p} : bool :=
  match p with
  | [] => true
  | AT_END :: p' => at_end s && matches_here p' s
  | Once i :: p' =>
      match s with
      | c :: s' => item_matches i c && matches_here p' s'
      | [] => false
      end
  | MAX_REPEAT i :: p' =>
      (fix repeat (s : pystr) : bool :=
         match s with
         | c :: s' => (item_matches i c && repeat s') || matches_here p' s
         | [] => matches_here p' s
         end) s
  end.

(** [pattern.match(s) is not None]. *)
Definition match_ (p : pattern) (s : pystr) : bool := matches_here p s.

End re.

(** ** The module state and its monad *)

(** The interpreter state the module reads and writes: the module-level
    dictionary [_cache], and a count of the calls made to [re.compile]
    (kept only so that statements can speak about compilation). *)
Record world : Type := World {
  _cache : gmap pystr re.pattern;
  compilations : nat
}.

Definition initial_world : world := World ∅ 0.

(** Python code: from a state to an outcome and the state it leaves. *)
Definition py (A : Type) : Type := world -> result A * world.

Definition ret {A} (a : A) : py A := fun w => (Return a, w).

Definition bind {A B} (m : py A) (k : A -> py B) : py B :=
  fun w =>
    match m w with
    | (Return a, w') => k a w'
    | (Raise e, w') => (Raise e, w')
    | (Stuck y, w') => (Stuck y, w')
    end.

Definition lift {A} (r : result A) : py A := fun w => (r, w).

Global Instance py_ret : MRet py := @ret.
Global Instance py_bind : MBind py := fun A B k m => bind m k.

(** [pat in _cache], [_cache[pat] = v] and [_cache[pat]]. *)
Definition cache_contains (pat : pystr) : py bool :=
  fun w => (Return (bool_decide (is_Some (_cache w !! pat))), w).

Definition cache_setitem (pat : pystr) (v : re.pattern) : py unit :=
  fun w => (Return tt, World (<[pat := v]> (_cache w)) (compilations w)).

Definition cache_getitem (pat : pystr) : py re.pattern :=
  fun w =>
    match _cache w !! pat with
    | Some v => (Return v, w)
    | None => (Raise KeyError, w)
    end.

(** [re.compile(res)]. *)
Definition re_compile (res : pystr) : py re.pattern :=
  fun w => (re.parse res, World (_cache w) (S (compilations w))).

(** [os.path]: the module bound to that name decides [normcase] and whether
    [os.path is posixpath] holds. *)
Record os_path : Type := OsPath {
  is_posixpath : bool;
  normcase : pystr -> pystr
}.

(** [posixpath.normcase] is the identity. *)
Definition posixpath : os_path := OsPath true (fun s => s).

(** [ntpath.normcase]: slashes become backslashes, then lower case. *)
Definition ntpath : os_path :=
  OsPath false (fun s => lower (replace s "/" [backslash])).

(** ** gitosis/my_fnmatch.py *)

Module my_fnmatch.

(** The inner loop of the [*] branch: consume the stars that follow,
    setting [multistars] at each one. *)
Fixpoint skip_stars (rest : pystr) (multistars : bool) : pystr * bool :=
  match rest with
  | c :: rest' =>
      if is_char c "*" then skip_stars rest' true else (rest, multistars)
  | [] => (rest, multistars)
  end.

(** [while j < n and pat[j] != ']': j = j+1], on [s = pat[j:]]. *)
Fixpoint find_close (s : pystr) (j : nat) : nat :=
  match s with
  | c :: s' => if is_char c "]" then j else find_close s' (S j)
  | [] => j
  end.

(** [j < n and pat[j] == c], with [j] counted from [i]. *)
Definition char_at (rest : pystr) (j : nat) (c : ascii) : bool :=
  match nth_error rest j with
  | Some d => is_char d c
  | None => false
  end.

(** The scan for the end of a class in the [[] branch; [rest] is [pat[i:]]
    and the result is [j - i]. *)
Definition class_end (rest : pystr) : nat :=
  let j := 0 in
  let j := if char_at rest j "!" then S j else j in
  let j := if char_at rest j "]" then S j else j in
  find_close (skipn j rest) j.

(** The rewriting of the class body. *)
Definition class_stuff (stuff : pystr) : result pystr :=
  let stuff := replace stuff backslash [backslash; backslash] in
  match stuff with
  | [] => Raise IndexError                (* stuff[0] *)
  | s0 :: tail =>
      if is_char s0 "!" then Return ("^"%char :: tail)
      else if is_char s0 "^" then Return (backslash :: stuff)
      else Return stuff
  end.

(** The main loop of [translate]; [rest] is [pat[i:]]. *)
Fixpoint translate_loop (fuel : nat) (rest : pystr) (multistars : bool)
    (res : pystr) : result pystr :=
  match rest with
  | [] => Return (res ++ str "$")
  | c :: rest =>
      match fuel with
      | O => Stuck OutOfFuel
      | S fuel =>
          if is_char c "*" then
            let '(rest, multistars) := skip_stars rest multistars in
            if multistars
            then translate_loop fuel rest multistars (res ++ str ".*")
            else translate_loop fuel rest multistars (res ++ str "[^/]*")
          else if is_char c "?" then
            translate_loop fuel rest multistars (res ++ str ".")
          else if is_char c "[" then
            let j := class_end rest in
            if length rest <=? j then
              translate_loop fuel rest multistars (res ++ str "\[")
            else
              stuff ← class_stuff (firstn j rest);
              translate_loop fuel (skipn (S j) rest) multistars
                (res ++ str "[" ++ stuff ++ str "]")
          else
            translate_loop fuel rest multistars (res ++ re.escape [c])
      end
  end.

Definition translate (pat : pystr) : result pystr :=
  translate_loop (length pat) pat false [].

Definition fnmatchcase (name pat : pystr) : py bool :=
  cached ← cache_contains pat;
  (if negb cached then
     res ← lift (translate pat);
     compiled ← re_compile res;
     cache_setitem pat compiled
   else ret tt);;
  compiled ← cache_getitem pat;
  ret (re.match_ compiled name).

Definition fnmatch (name pat : pystr) : py bool :=
  let name := lower name in
  let pat := lower pat in
  fnmatchcase name pat.

Definition filter (os : os_path) (names : list pystr) (pat : pystr)
  : py (list pystr) :=
  let pat := normcase os pat in
  cached ← cache_contains pat;
  (if negb cached then
     res ← lift (translate pat);
     compiled ← re_compile res;
     cache_setitem pat compiled
   else ret tt);;
  compiled ← cache_getitem pat;
  let match_ := re.match_ compiled in
  if is_posixpath os then
    ret (List.filter (fun name => match_ name) names)
  else
    ret (List.filter (fun name => match_ (normcase os name)) names).

End my_fnmatch.

(** ** Running the module *)

(** A call made on a fresh interpreter, where [_cache] is empty. *)
Definition run {A} (m : py A) : result A := (m initial_world).1.

(** What [re.compile(translate(pat))] gives, without the state. *)
Definition compiled_of (pat : pystr) : result re.pattern :=
  res ← my_fnmatch.translate pat; re.parse res.

(** The states the module can be in: the initial one, and those left by
    calls of the entry points. *)
Inductive reachable : world -> Prop :=
| reach_initial : reachable initial_world
| reach_fnmatchcase w name pat :
    reachable w -> reachable (my_fnmatch.fnmatchcase name pat w).2
| reach_fnmatch w name pat :
    reachable w -> reachable (my_fnmatch.fnmatch name pat w).2
| reach_filter w os names pat :
    reachable w -> reachable (my_fnmatch.filter os names pat w).2.

(** Every entry of [_cache] is the compiled translation of its key. *)
Definition cache_ok (w : world) : Prop :=
  forall pat v, _cache w !! pat = Some v -> compiled_of pat = Return v.

(** A pattern without wildcard tokens. *)
Definition is_wildcard (c : ascii) : bool :=
  is_char c "*" || is_char c "?" || is_char c "[".

Definition literal_pattern (pat : pystr) : bool :=
  forallb (fun c => negb (is_wildcard c)) pat.

(** The loop of [translate] and the parser of [re], run with the fuel
    their input calls for. *)
Definition translate_from (rest : pystr) (multistars : bool) (res : pystr)
  : result pystr :=
  my_fnmatch.translate_loop (length rest) rest multistars res.

Definition parse_from (source : list re.token) (subpattern : re.pattern)
  : result re.pattern :=
  re._parse (length source) source subpattern.

(** The tokens [re.escape] produces for one character. *)
Definition escape_tokens (c : ascii) : list re.token :=
  if is_alnum c then [re.Ch c]
  else if is_char c "000" then [re.Esc "0"; re.Ch "0"; re.Ch "0"]
  else [re.Esc c].

(** The token a character of a class body becomes once its backslashes
    are doubled. *)
Definition body_token (c : ascii) : re.token :=
  if is_char c backslash then re.Esc backslash else re.Ch c.

(** Tokens that stand for a member of a set and do not close it. *)
Definition member_tok (t : re.token) : bool :=
  match t with
  | re.Ch c => negb (is_char c "]")
  | re.Esc c => negb (is_alnum c)
  end.

(** The outcomes [re.compile] has on what [translate] produces. *)
Definition compiles_or_rejects {A} (r : result A) : Prop :=
  r = Raise re_error \/ exists a, r = Return a.

(** The token after a repeat is never a bare [?]. *)
Definition head_plain (toks : list re.token) : Prop :=
  match toks with
  | t :: _ => re.is_tok t "?" = false
  | [] => True
  end.

(** The entry points as functions of their arguments alone. *)
Definition fnmatchcase_value (name pat : pystr) : result bool :=
  compiled ← compiled_of pat; Return (re.match_ compiled name).

Definition filter_value (os : os_path) (names : list pystr) (pat : pystr)
  : result (list pystr) :=
  compiled ← compiled_of (normcase os pat);
  Return (List.filter
            (fun name =>
               re.match_ compiled
                 (if is_posixpath os then name else normcase os name))
            names).

(** [r] is the boolean [True]. *)
Definition returns_true (r : result bool) : bool :=
  match r with
  | Return true => true
  | _ => false
  end.

(** A pattern without any opening bracket. *)
Definition bracket_free (pat : pystr) : bool :=
  forallb (fun c => negb (is_char c "[")) pat.

(** The outcome expected of a compilation: a pattern when [strict], a
    pattern or [re.error] otherwise. *)
Definition outcome (strict : bool) {A} (r : result A) : Prop :=
  if strict then exists a, r = Return a else compiles_or_rejects r.

(** The case-insensitive entry point in the words of the specification:
    lower-cased copies of both arguments are made, and the case-sensitive
    entry point is applied to them. *)
Definition matchCaseInsensitive (candidate pattern : pystr) : py bool :=
  my_fnmatch.fnmatchcase (lower candidate) (lower pattern).

(** The shapes a class body can have: the characters the scan skipped,
    then characters that are no closing bracket. *)
Inductive class_prefix : pystr -> pystr -> Prop :=
| prefix_bang_close tail : class_prefix (str "!]") tail
| prefix_bang c tail : class_prefix (str "!") (c :: tail)
| prefix_close tail : class_prefix (str "]") tail
| prefix_none c tail : is_char c "!" = false -> class_prefix [] (c :: tail).

(** The first token of what follows a parsed item is neither a bare [?]
    nor a bare [*]. *)
Definition head_item (toks : list re.token) : Prop :=
  match toks with
  | t :: _ => re.is_tok t "?" = false /\ re.is_tok t "*" = false
  | [] => True
  end.

(** [c not in s]. *)
Definition no_char (c : ascii) (s : pystr) : bool :=
  forallb (fun d => negb (is_char d c)) s.

(** A class left open, in the words of the claim about it: once one
    leading [!], if there is one, and then one leading []], if there is
    one, are set aside, the text after the [[] holds no []]. *)
Definition skip_one (c : ascii) (s : pystr) : pystr :=
  match s with
  | d :: s' => if is_char d c then s' else s
  | [] => s
  end.

Definition unterminated (post : pystr) : bool :=
  no_char "]" (skip_one "]" (skip_one "!" post)).

(** [pat[0] == '*'], false on the empty pattern. *)
Definition starts_with_star (pat : pystr) : bool :=
  match pat with
  | c :: _ => is_char c "*"
  | [] => false
  end.

(** [s.count('/')]. *)
Definition slashes (s : pystr) : nat :=
  length (List.filter (fun c => is_char c "/") s).

(** Patterns made of literal characters and of stars that stand alone:
    no [?], no [[], no two stars in a row. *)
Fixpoint lone_stars (pat : pystr) : bool :=
  match pat with
  | [] => true
  | c :: rest =>
      negb (is_char c "?") && negb (is_char c "[")
      && negb (is_char c "*" && starts_with_star rest)
      && lone_stars rest
  end.





(** ** Characters *)

Ltac rsimpl := cbn [mbind result_bind rbind mret result_ret].

Ltac app_normalize :=
  repeat first [rewrite <- app_assoc | progress simpl].

Lemma is_char_eq c d : is_char c d = true <-> c = d.
Proof. apply Ascii.eqb_eq. Qed.

Lemma is_char_neq c d : is_char c d = false <-> c <> d.
Proof. apply Ascii.eqb_neq. Qed.

Lemma is_char_refl c : is_char c c = true.
Proof. apply Ascii.eqb_refl. Qed.

(** ** [translate]: enough fuel, and no exception *)

Section translate_facts.
Import my_fnmatch.

Lemma pystr_length_ind (P : pystr -> Prop) :
  (forall s, (forall t, length t < length s -> P t) -> P s) -> forall s, P s.
Proof.
  intros step s. remember (length s) as n eqn:Hn.
  revert s Hn. induction n as [n IH] using lt_wf_ind.
  intros s ->. apply step. intros t Ht. by apply (IH (length t)).
Qed.

Lemma skip_stars_length rest ms : length (skip_stars rest ms).1 <= length rest.
Proof.
  revert ms. induction rest as [|c rest IH]; intros ms; simpl; [lia|].
  destruct (is_char c "*"); simpl; [|lia].
  specialize (IH true). lia.
Qed.

Lemma find_close_bounds s j : j <= find_close s j <= j + length s.
Proof.
  revert j. induction s as [|c s IH]; intros j; simpl; [lia|].
  destruct (is_char c "]"); [lia|]. specialize (IH (S j)). lia.
Qed.

(** Inside the class branch the body [pat[i:j]] is not empty. *)
Lemma class_end_pos rest : class_end rest < length rest -> 0 < class_end rest.
Proof.
  unfold class_end, char_at.
  destruct rest as [|c rest]; simpl; [lia|].
  destruct (is_char c "!") eqn:Hb; simpl.
  - intros _. destruct rest as [|d rest]; simpl; [lia|].
    match goal with |- context [find_close ?s ?j] =>
      pose proof (find_close_bounds s j) end.
    destruct (is_char d "]"); lia.
  - intros _. destruct (is_char c "]") eqn:Hc.
    + match goal with |- context [find_close ?s ?j] =>
        pose proof (find_close_bounds s j) end. lia.
    + rewrite skipn_O. simpl. rewrite Hc.
      pose proof (find_close_bounds rest 1). lia.
Qed.

Lemma replace_nonempty s old new :
  s <> [] -> new <> [] -> replace s old new <> [].
Proof.
  destruct s as [|c s]; [done|]. intros _ Hnew. unfold replace. simpl.
  destruct (is_char c old); [|done].
  destruct new; [done|]. done.
Qed.

Lemma class_stuff_returns stuff :
  stuff <> [] -> exists r, class_stuff stuff = Return r.
Proof.
  intros Hne. unfold class_stuff.
  pose proof (replace_nonempty stuff backslash [backslash; backslash] Hne) as H.
  destruct (replace stuff backslash [backslash; backslash]) as [|s0 tl].
  - by destruct H.
  - destruct (is_char s0 "!"); [eauto|]. destruct (is_char s0 "^"); eauto.
Qed.

Lemma class_body_returns rest :
  class_end rest < length rest ->
  exists r, class_stuff (firstn (class_end rest) rest) = Return r.
Proof.
  intros Hlt. apply class_stuff_returns.
  pose proof (class_end_pos rest Hlt).
  destruct rest; simpl in *; [lia|].
  destruct (class_end (a :: rest)); [lia|]. done.
Qed.

(** One turn of the loop. *)
Lemma translate_loop_step fuel c rest ms res :
  translate_loop (S fuel) (c :: rest) ms res =
    if is_char c "*" then
      let '(rest', ms') := skip_stars rest ms in
      if ms' then translate_loop fuel rest' ms' (res ++ str ".*")
      else translate_loop fuel rest' ms' (res ++ str "[^/]*")
    else if is_char c "?" then translate_loop fuel rest ms (res ++ str ".")
    else if is_char c "[" then
      let j := class_end rest in
      if length rest <=? j then translate_loop fuel rest ms (res ++ str "\[")
      else
        stuff ← class_stuff (firstn j rest);
        translate_loop fuel (skipn (S j) rest) ms
          (res ++ str "[" ++ stuff ++ str "]")
    else translate_loop fuel rest ms (res ++ re.escape [c]).
Proof. reflexivity. Qed.

(** Any fuel of at least the length of the remaining pattern gives the
    same run, and the run returns. *)
Lemma translate_loop_returns rest :
  forall fuel ms res, length rest <= fuel ->
    exists r, translate_loop fuel rest ms res = Return r
         /\ translate_loop (length rest) rest ms res = Return r.
Proof.
  induction rest as [rest IH] using pystr_length_ind.
  intros fuel ms res Hfuel.
  destruct rest as [|c rest]; [destruct fuel; simpl; eauto|].
  destruct fuel as [|fuel]; [simpl in Hfuel; lia|].
  assert (Hfuel' : length rest <= fuel) by (simpl in Hfuel; lia).
  assert (IH' : forall rest' ms' res', length rest' <= length rest ->
            exists r, translate_loop fuel rest' ms' res' = Return r
                 /\ translate_loop (length rest) rest' ms' res' = Return r).
  { intros rest' ms' res' Hlen.
    assert (Hlt : length rest' < length (c :: rest)) by (simpl; lia).
    destruct (IH rest' Hlt fuel ms' res' ltac:(lia)) as (r & H1 & H2).
    destruct (IH rest' Hlt (length rest) ms' res' ltac:(lia)) as (r' & H3 & H4).
    exists r. split; [done|]. congruence. }
  clear IH. change (length (c :: rest)) with (S (length rest)).
  rewrite !translate_loop_step.
  destruct (is_char c "*").
  { pose proof (skip_stars_length rest ms) as Hlen.
    destruct (skip_stars rest ms) as [rest' ms']. simpl in Hlen.
    destruct ms'; by apply IH'. }
  destruct (is_char c "?"); [by apply IH'|].
  destruct (is_char c "["); [|by apply IH'].
  cbv zeta.
  destruct (Nat.leb_spec (length rest) (class_end rest)) as [Hle|Hlt];
    [by apply IH'|].
  destruct (class_body_returns rest Hlt) as [stuff ->]. simpl.
  apply IH'. rewrite length_skipn. lia.
Qed.

Lemma translate_returns pat : exists r, translate pat = Return r.
Proof.
  destruct (translate_loop_returns pat (length pat) false [] ltac:(lia))
    as (r & H & _).
  by exists r.
Qed.

Lemma translate_loop_fuel fuel rest ms res :
  length rest <= fuel ->
  translate_loop fuel rest ms res = translate_from rest ms res.
Proof.
  intros Hfuel. unfold translate_from.
  destruct (translate_loop_returns rest fuel ms res Hfuel) as (r & -> & ->).
  done.
Qed.

(** The loop, without its fuel. *)
Lemma translate_from_nil ms res : translate_from [] ms res = Return (res ++ str "$").
Proof. reflexivity. Qed.

Lemma translate_from_star rest ms res :
  translate_from ("*"%char :: rest) ms res =
    let '(rest', ms') := skip_stars rest ms in
    translate_from rest' ms' (res ++ if ms' then str ".*" else str "[^/]*").
Proof.
  unfold translate_from at 1. change (length (_ :: rest)) with (S (length rest)).
  rewrite translate_loop_step. simpl is_char. cbv iota.
  pose proof (skip_stars_length rest ms) as Hlen.
  destruct (skip_stars rest ms) as [rest' ms']. simpl in Hlen.
  destruct ms'; by apply translate_loop_fuel.
Qed.

Lemma translate_from_question rest ms res :
  translate_from ("?"%char :: rest) ms res = translate_from rest ms (res ++ str ".").
Proof. reflexivity. Qed.

Lemma translate_from_open rest ms res :
  translate_from ("["%char :: rest) ms res =
    let j := class_end rest in
    if length rest <=? j then translate_from rest ms (res ++ str "\[")
    else
      stuff ← class_stuff (firstn j rest);
      translate_from (skipn (S j) rest) ms (res ++ str "[" ++ stuff ++ str "]").
Proof.
  unfold translate_from at 1. change (length (_ :: rest)) with (S (length rest)).
  rewrite translate_loop_step. simpl is_char. cbv iota zeta.
  destruct (length rest <=? class_end rest); [done|].
  destruct (class_stuff _) as [stuff| |]; simpl; [|done..].
  apply translate_loop_fuel. rewrite length_skipn. lia.
Qed.

Lemma translate_from_other c rest ms res :
  is_wildcard c = false ->
  translate_from (c :: rest) ms res = translate_from rest ms (res ++ re.escape [c]).
Proof.
  unfold is_wildcard. intros H.
  apply orb_false_elim in H as [H H3]. apply orb_false_elim in H as [H1 H2].
  unfold translate_from at 1. change (length (_ :: rest)) with (S (length rest)).
  rewrite translate_loop_step, H1, H2, H3. done.
Qed.

(** [res] is only ever extended. *)
Lemma translate_from_res rest :
  forall ms res,
    translate_from rest ms res = r ← translate_from rest ms []; Return (res ++ r).
Proof.
  induction rest as [rest IH] using pystr_length_ind. intros ms res.
  destruct rest as [|c rest]; [by rewrite !translate_from_nil|].
  destruct (is_wildcard c) eqn:Hw.
  - unfold is_wildcard in Hw.
    destruct (is_char c "*") eqn:H1.
    { apply is_char_eq in H1 as ->. rewrite !translate_from_star.
      pose proof (skip_stars_length rest ms) as Hlen.
      destruct (skip_stars rest ms) as [rest' ms']. simpl in Hlen.
      rewrite (IH rest' ltac:(simpl; lia) ms' (res ++ _)).
      rewrite (IH rest' ltac:(simpl; lia) ms' ([] ++ _)).
      destruct (translate_from rest' ms' []); simpl; [|done..].
      by app_normalize. }
    destruct (is_char c "?") eqn:H2.
    { apply is_char_eq in H2 as ->. rewrite !translate_from_question.
      rewrite (IH rest ltac:(simpl; lia) ms (res ++ _)).
      rewrite (IH rest ltac:(simpl; lia) ms ([] ++ _)).
      destruct (translate_from rest ms []); simpl; [|done..].
      by app_normalize. }
    simpl in Hw. apply is_char_eq in Hw as ->. rewrite !translate_from_open.
    cbv zeta. destruct (length rest <=? class_end rest).
    { rewrite (IH rest ltac:(simpl; lia) ms (res ++ _)).
      rewrite (IH rest ltac:(simpl; lia) ms ([] ++ _)).
      destruct (translate_from rest ms []); simpl; [|done..].
      by app_normalize. }
    destruct (class_stuff _) as [stuff| |]; simpl; [|done..].
    assert (Hlt : length (skipn (S (class_end rest)) rest) < length ("["%char :: rest))
      by (rewrite length_skipn; simpl; lia).
    rewrite (IH _ Hlt ms (res ++ _)).
    rewrite (IH _ Hlt ms ("["%char :: _)).
    destruct (translate_from _ ms []); simpl; [|done..].
    by app_normalize.
  - rewrite !translate_from_other by done.
    rewrite (IH rest ltac:(simpl; lia) ms (res ++ _)).
    rewrite (IH rest ltac:(simpl; lia) ms ([] ++ _)).
    destruct (translate_from rest ms []); simpl; [|done..].
    by app_normalize.
Qed.

End translate_facts.

(** ** The parser of [re]: enough fuel *)

Section re_facts.
Import re.

Lemma parse_set_length source :
  forall set set' rest,
    parse_set source set = Return (set', rest) -> length rest < length source.
Proof.
  induction source as [source IH] using (induction_ltof1 _ (@length token)).
  unfold ltof in IH. intros set set' rest.
  destruct source as [|this source1]; [done|]. simpl.
  destruct (is_tok this "]" && _).
  { intros [= <- <-]. lia. }
  destruct (class_code this) as [code1| |]; simpl; [|done..].
  destruct source1 as [|dash source2].
  { intros H. apply IH in H; simpl in *; lia. }
  destruct (is_tok dash "-").
  - destruct source2 as [|that source3]; [done|].
    destruct (is_tok that "]").
    { intros [= <- <-]. simpl. lia. }
    destruct (class_code that) as [code2| |]; simpl; [|done..].
    destruct (ord code2 <? ord code1); [done|].
    intros H. apply IH in H; simpl in *; lia.
  - intros H. apply IH in H; simpl in *; lia.
Qed.

Lemma take_octal_length source : length (take_octal source).2 <= length source.
Proof.
  unfold take_octal.
  destruct source as [|[d1|] source1]; simpl; try lia.
  destruct (is_octdigit d1); simpl; [|lia].
  destruct source1 as [|[d2|] source2]; simpl; try lia.
  destruct (is_octdigit d2); simpl; lia.
Qed.

Lemma parse_escape_length c source code rest :
  parse_escape c source = Return (code, rest) -> length rest <= length source.
Proof.
  unfold parse_escape. destruct (is_char c "0").
  - pose proof (take_octal_length source) as H.
    destruct (take_octal source) as [ds source']. intros [= <- <-]. done.
  - destruct (is_alnum c); [done|]. by intros [= <- <-].
Qed.

(** One turn of the parser. *)
Lemma _parse_step fuel this source1 subpattern :
  _parse (S fuel) (this :: source1) subpattern =
    match this with
    | Esc c =>
        '(code, source2) ← parse_escape c source1;
        _parse fuel source2 (subpattern ++ [Once code])
    | Ch c =>
        if is_char c "[" then
          let '(negate, source2) :=
            match source1 with
            | t :: rest => if is_tok t "^" then (true, rest) else (false, source1)
            | [] => (false, source1)
            end in
          '(set, source3) ← parse_set source2 [];
          _parse fuel source3 (subpattern ++ [Once (IN negate set)])
        else if is_char c "*" then
          subpattern' ← repeat_last subpattern;
          match source1 with
          | t :: _ =>
              if is_tok t "?" then Stuck OutOfFragment
              else _parse fuel source1 subpattern'
          | [] => _parse fuel source1 subpattern'
          end
        else if is_char c "." then _parse fuel source1 (subpattern ++ [Once ANY])
        else if is_char c "$" then _parse fuel source1 (subpattern ++ [AT_END])
        else if existsb (is_char c) (str "+?{()|^") then Stuck OutOfFragment
        else _parse fuel source1 (subpattern ++ [Once (LITERAL c)])
    end.
Proof. reflexivity. Qed.

Lemma _parse_fuel fuel1 :
  forall fuel2 source subpattern,
    length source <= fuel1 -> length source <= fuel2 ->
    _parse fuel1 source subpattern = _parse fuel2 source subpattern.
Proof.
  induction fuel1 as [|fuel1 IH]; intros fuel2 source subpattern H1 H2.
  { destruct source; [by destruct fuel2|simpl in H1; lia]. }
  destruct source as [|this source1]; [by destruct fuel2|].
  destruct fuel2 as [|fuel2]; [simpl in H2; lia|].
  simpl in H1, H2. rewrite !_parse_step.
  destruct this as [c|c].
  - destruct (is_char c "[").
    { assert (Hneg : forall (p : bool * list token),
                p = match source1 with
                    | t :: rest => if is_tok t "^" then (true, rest) else (false, source1)
                    | [] => (false, source1)
                    end -> length p.2 <= length source1).
      { intros p ->. destruct source1 as [|t rest]; [done|].
        destruct (is_tok t "^"); simpl; lia. }
      specialize (Hneg _ eq_refl).
      destruct (match source1 with [] => _ | _ => _ end) as [negate source2].
      simpl in Hneg.
      destruct (parse_set source2 []) as [[set source3]| |] eqn:Hset; simpl; [|done..].
      apply parse_set_length in Hset. apply IH; lia. }
    destruct (is_char c "*").
    { destruct (repeat_last subpattern) as [sub'| |]; simpl; [|done..].
      destruct source1 as [|t rest]; [apply IH; simpl; lia|].
      destruct (is_tok t "?"); [done|]. apply IH; simpl in *; lia. }
    destruct (is_char c "."); [apply IH; lia|].
    destruct (is_char c "$"); [apply IH; lia|].
    destruct (existsb _ _); [done|]. apply IH; lia.
  - destruct (parse_escape c source1) as [[code source2]| |] eqn:Hesc; simpl; [|done..].
    apply parse_escape_length in Hesc. apply IH; lia.
Qed.

Lemma parse_from_fuel fuel source subpattern :
  length source <= fuel -> _parse fuel source subpattern = parse_from source subpattern.
Proof. intros H. unfold parse_from. by apply _parse_fuel. Qed.

Lemma parse_from_nil subpattern : parse_from [] subpattern = Return subpattern.
Proof. reflexivity. Qed.

Lemma parse_from_dot source subpattern :
  parse_from (Ch "." :: source) subpattern = parse_from source (subpattern ++ [Once ANY]).
Proof. reflexivity. Qed.

Lemma parse_from_dollar source subpattern :
  parse_from (Ch "$" :: source) subpattern = parse_from source (subpattern ++ [AT_END]).
Proof. reflexivity. Qed.

Lemma repeat_last_once subpattern i :
  repeat_last (subpattern ++ [Once i]) = Return (subpattern ++ [MAX_REPEAT i]).
Proof. unfold repeat_last. rewrite rev_app_distr. simpl. by rewrite rev_involutive. Qed.

(** A [*] turns the item before it into a repeat, unless a [?] follows. *)
Lemma parse_from_star source subpattern i :
  match source with t :: _ => is_tok t "?" = false | [] => True end ->
  parse_from (Ch "*" :: source) (subpattern ++ [Once i]) =
    parse_from source (subpattern ++ [MAX_REPEAT i]).
Proof.
  intros Hnext. unfold parse_from at 1.
  change (length (_ :: source)) with (S (length source)).
  rewrite _parse_step. simpl is_char. cbv iota.
  rewrite repeat_last_once. simpl.
  destruct source as [|t rest]; [done|]. by rewrite Hnext.
Qed.

Lemma parse_from_escape c source subpattern :
  parse_from (Esc c :: source) subpattern =
    '(code, source2) ← parse_escape c source;
    parse_from source2 (subpattern ++ [Once code]).
Proof.
  unfold parse_from at 1. change (length (_ :: source)) with (S (length source)).
  rewrite _parse_step.
  destruct (parse_escape c source) as [[code source2]| |] eqn:Hesc; simpl; [|done..].
  apply parse_escape_length in Hesc. by apply parse_from_fuel.
Qed.

Lemma parse_from_set (negate : bool) (source : list token) subpattern :
  (negate = false ->
   match source with t :: _ => is_tok t "^" = false | [] => True end) ->
  parse_from (Ch "[" :: (if negate then Ch "^" :: source else source)) subpattern =
    '(set, source3) ← parse_set source [];
    parse_from source3 (subpattern ++ [Once (IN negate set)]).
Proof.
  intros Hnext. unfold parse_from at 1.
  match goal with |- context [length (?t :: ?s)] =>
    change (length (t :: s)) with (S (length s)) end.
  rewrite _parse_step. simpl is_char. cbv iota.
  destruct negate.
  - simpl is_tok. cbv iota.
    destruct (parse_set source []) as [[set source3]| |] eqn:Hset; rsimpl; [|done..].
    apply parse_set_length in Hset. apply parse_from_fuel. simpl. lia.
  - specialize (Hnext eq_refl).
    assert (Heq : match source with
                  | t :: rest => if is_tok t "^" then (true, rest) else (false, source)
                  | [] => (false, source)
                  end = (false, source)).
    { destruct source as [|t rest]; [done|]. by rewrite Hnext. }
    rewrite Heq.
    destruct (parse_set source []) as [[set source3]| |] eqn:Hset; rsimpl; [|done..].
    apply parse_set_length in Hset. apply parse_from_fuel. lia.
Qed.

End re_facts.

(** ** Literal characters, from pattern to parsed item *)

Section literal_facts.
Import re my_fnmatch.

Lemma alnum_differs c d : is_alnum c = true -> is_alnum d = false -> is_char c d = false.
Proof.
  intros Hc Hd. apply is_char_neq. intros ->. congruence.
Qed.

Lemma tokenize_char c s :
  is_char c backslash = false ->
  tokenize (c :: s) = ts ← tokenize s; Return (Ch c :: ts).
Proof. intros H. simpl. by rewrite H. Qed.

Lemma tokenize_backslash c s :
  tokenize (backslash :: c :: s) = ts ← tokenize s; Return (Esc c :: ts).
Proof. reflexivity. Qed.

Lemma tokenize_escape_char c s :
  tokenize (escape_char c ++ s) = ts ← tokenize s; Return (escape_tokens c ++ ts).
Proof.
  unfold escape_char, escape_tokens.
  destruct (is_alnum c) eqn:Halnum.
  - simpl. rewrite (alnum_differs c backslash Halnum eq_refl). done.
  - destruct (is_char c "000").
    + simpl. by destruct (tokenize s).
    + reflexivity.
Qed.

(** The tokens of an escaped character parse to that character. *)
Lemma parse_from_literal c source subpattern :
  parse_from (escape_tokens c ++ source) subpattern =
    parse_from source (subpattern ++ [Once (LITERAL c)]).
Proof.
  unfold escape_tokens. destruct (is_alnum c) eqn:Halnum.
  - unfold parse_from at 1.
    change (length ([Ch c] ++ source)) with (S (length source)).
    change ([Ch c] ++ source) with (Ch c :: source).
    rewrite _parse_step. simpl existsb.
    repeat match goal with
           | |- context [is_char c ?d] =>
               rewrite (alnum_differs c d Halnum eq_refl)
           end.
    done.
  - destruct (is_char c "000") eqn:Hnul.
    + apply is_char_eq in Hnul as ->.
      change ([Esc "0"; Ch "0"; Ch "0"] ++ source)
        with (Esc "0" :: Ch "0" :: Ch "0" :: source).
      by rewrite parse_from_escape.
    + change ([Esc c] ++ source) with (Esc c :: source).
      rewrite parse_from_escape. unfold parse_escape.
      replace (is_char c "0") with false; [by rewrite Halnum|].
      symmetry. apply is_char_neq. intros ->. done.
Qed.

Lemma translate_from_literal pat :
  forall ms res,
    literal_pattern pat = true ->
    translate_from pat ms res = Return (res ++ escape pat ++ str "$").
Proof.
  induction pat as [|c pat IH]; intros ms res Hlit.
  - by rewrite translate_from_nil.
  - simpl in Hlit. apply andb_prop in Hlit as [Hc Hlit].
    apply negb_true_iff in Hc.
    rewrite translate_from_other by done. rewrite IH by done.
    f_equal. unfold escape. simpl. rewrite app_nil_r. by rewrite <- !app_assoc.
Qed.

Lemma tokenize_escape pat s :
  tokenize (escape pat ++ s) = ts ← tokenize s; Return (flat_map escape_tokens pat ++ ts).
Proof.
  induction pat as [|c pat IH]; simpl.
  - by destruct (tokenize s).
  - unfold escape in *. rewrite <- app_assoc, tokenize_escape_char, IH.
    destruct (tokenize s); rsimpl; [|done..]. by rewrite <- app_assoc.
Qed.

Lemma parse_from_literals pat source subpattern :
  parse_from (flat_map escape_tokens pat ++ source) subpattern =
    parse_from source (subpattern ++ map (fun c => Once (LITERAL c)) pat).
Proof.
  revert subpattern. induction pat as [|c pat IH]; intros subpattern; simpl.
  - by rewrite app_nil_r.
  - rewrite <- app_assoc, parse_from_literal, IH. by rewrite <- app_assoc.
Qed.

(** A pattern without wildcards compiles to its characters and [$]. *)
Lemma compiled_of_literal pat :
  literal_pattern pat = true ->
  compiled_of pat = Return (map (fun c => Once (LITERAL c)) pat ++ [AT_END]).
Proof.
  intros Hlit. unfold compiled_of, translate.
  rewrite (translate_loop_fuel _ _ _ _ (le_n _)).
  rewrite translate_from_literal by done. rsimpl. simpl app at 1.
  unfold parse. rewrite tokenize_escape. simpl tokenize. rsimpl.
  rewrite parse_from_fuel by done.
  rewrite parse_from_literals, parse_from_dollar. done.
Qed.

Lemma at_end_spec s : at_end s = true <-> s = [] \/ s = [newline].
Proof.
  destruct s as [|c [|d s]]; simpl.
  - split; [by left|done].
  - rewrite is_char_eq. split; [intros ->; by right|]. by intros [|[= ->]].
  - split; [done|]. by intros [|].
Qed.

(** Literal items match the very same characters, and [$] lets one final
    newline through. *)
Lemma matches_here_literals pat s :
  matches_here (map (fun c => Once (LITERAL c)) pat ++ [AT_END]) s = true
  <-> s = pat \/ s = pat ++ [newline].
Proof.
  revert s. induction pat as [|c pat IH]; intros s; simpl.
  - rewrite andb_true_r. apply at_end_spec.
  - destruct s as [|d s].
    + split; [done|]. by intros [|].
    + rewrite andb_true_iff, is_char_eq, IH. split.
      * intros [-> [->| ->]]; [by left|by right].
      * intros [[= -> ->]|[= -> ->]]; split; auto.
Qed.

End literal_facts.

(** ** The cache *)

Section cache_facts.
Import my_fnmatch.

(** The lookup-or-compile prefix shared by [fnmatchcase] and [filter]. *)
Lemma lookup_or_compile w pat (A : Type) (k : re.pattern -> py A) :
  cache_ok w ->
  let m : py A :=
    cached ← cache_contains pat;
    (if negb cached then
       res ← lift (translate pat);
       compiled ← re_compile res;
       cache_setitem pat compiled
     else ret tt);;
    compiled ← cache_getitem pat;
    k compiled in
  match compiled_of pat with
  | Return c =>
      exists w', m w = k c w' /\ cache_ok w'
        /\ compilations w <= compilations w' <= S (compilations w)
  | Raise e => m w = (Raise e, World (_cache w) (S (compilations w)))
               /\ _cache w !! pat = None
  | Stuck y => (m w).1 = Stuck y /\ _cache w !! pat = None
  end.
Proof.
  intros Hok m. subst m.
  unfold mbind, py_bind, bind, cache_contains, cache_getitem, cache_setitem,
    re_compile, lift, ret. simpl.
  destruct (_cache w !! pat) as [v|] eqn:Hlook.
  - rewrite bool_decide_eq_true_2 by eauto. simpl. rewrite Hlook.
    rewrite (Hok _ _ Hlook). exists w. repeat split; auto; lia.
  - rewrite bool_decide_eq_false_2 by (intros [? ?]; done). simpl.
    unfold compiled_of.
    destruct (translate_returns pat) as [res Htr]. rewrite Htr. rsimpl.
    destruct (re.parse res) as [c| |] eqn:Hparse; simpl; [|done..].
    rewrite lookup_insert_eq.
    eexists. split; [reflexivity|]. split; [|simpl; lia].
    intros pat' v'. simpl. rewrite lookup_insert.
    case_decide as Heq.
    + intros [= <-]. subst pat'. unfold compiled_of. rewrite Htr. rsimpl. done.
    + apply Hok.
Qed.

End cache_facts.

(** ** Character classes, from pattern to parsed set *)

Section class_facts.
Import re my_fnmatch.

Lemma find_close_split s :
  forall j, find_close s j < j + length s ->
    exists tail rest',
      s = tail ++ "]"%char :: rest'
      /\ find_close s j = j + length tail
      /\ Forall (fun c => is_char c "]" = false) tail.
Proof.
  induction s as [|c s IH]; intros j; simpl; [lia|].
  destruct (is_char c "]") eqn:Hc.
  - intros _. apply is_char_eq in Hc as ->.
    exists [], s. simpl. repeat split; [lia|constructor].
  - intros H. destruct (IH (S j) ltac:(lia)) as (tail & rest' & -> & Hj & Hall).
    exists (c :: tail), rest'. simpl. repeat split; [lia|by constructor].
Qed.

Lemma class_end_split rest :
  class_end rest < length rest ->
  exists pre tail rest',
    rest = pre ++ tail ++ "]"%char :: rest'
    /\ class_end rest = length (pre ++ tail)
    /\ Forall (fun c => is_char c "]" = false) tail
    /\ class_prefix pre tail.
Proof.
  unfold class_end, char_at.
  destruct rest as [|c rest]; simpl; [lia|].
  destruct (is_char c "!") eqn:Hbang; simpl.
  - apply is_char_eq in Hbang as ->.
    destruct rest as [|d rest]; simpl; [lia|].
    destruct (is_char d "]") eqn:Hd.
    + apply is_char_eq in Hd as ->. rewrite !skipn_cons, skipn_O. intros H.
      destruct (find_close_split rest 2 ltac:(lia)) as (tail & rest' & -> & Hj & Hall).
      exists (str "!]"), tail, rest'. rewrite Hj, length_app. simpl.
      repeat split; [done|constructor].
    + rewrite skipn_cons, skipn_O. intros H.
      destruct (find_close_split (d :: rest) 1 ltac:(cbn [length]; lia))
        as (tail & rest' & Heq & Hj & Hall).
      destruct tail as [|e tail].
      { simpl in Heq. injection Heq as -> _. by rewrite is_char_refl in Hd. }
      exists (str "!"), (e :: tail), rest'. rewrite Hj, Heq.
      repeat split; [done|constructor].
  - destruct (is_char c "]") eqn:Hc.
    + apply is_char_eq in Hc as ->. rewrite skipn_cons, skipn_O. intros H.
      destruct (find_close_split rest 1 ltac:(lia)) as (tail & rest' & -> & Hj & Hall).
      exists (str "]"), tail, rest'. rewrite Hj.
      repeat split; [done|constructor].
    + rewrite skipn_O. intros H.
      destruct (find_close_split (c :: rest) 0 ltac:(cbn [length]; lia))
        as (tail & rest' & Heq & Hj & Hall).
      destruct tail as [|e tail].
      { simpl in Heq. injection Heq as -> _. by rewrite is_char_refl in Hc. }
      simpl in Heq. injection Heq as <- Heq.
      exists [], (c :: tail), rest'. rewrite Hj, Heq.
      repeat split; [done|by constructor].
Qed.

(** Doubling the backslashes makes every character one token. *)
Lemma tokenize_replace body s :
  tokenize (replace body backslash [backslash; backslash] ++ s) =
    ts ← tokenize s; Return (map body_token body ++ ts).
Proof.
  induction body as [|c body IH].
  - simpl. by destruct (tokenize s).
  - change (replace (c :: body) backslash [backslash; backslash])
      with ((if is_char c backslash then [backslash; backslash] else [c])
            ++ replace body backslash [backslash; backslash]).
    cbn [map]. unfold body_token at 1. rewrite <- app_assoc.
    destruct (is_char c backslash) eqn:Hc; cbn [app].
    + rewrite tokenize_backslash, IH. by destruct (tokenize s).
    + rewrite tokenize_char, IH by done. by destruct (tokenize s).
Qed.

Lemma class_code_member t : member_tok t = true -> exists c, class_code t = Return c.
Proof.
  destruct t as [c|c]; simpl; [eauto|].
  intros H. apply negb_true_iff in H. rewrite H. eauto.
Qed.

Lemma member_tok_not_close t : member_tok t = true -> is_tok t "]" = false.
Proof. destruct t as [c|c]; simpl; [|done]. by intros ?%negb_true_iff. Qed.

(** Over members that cannot close the set, the loop of the set parser
    runs up to the closing bracket: it rejects a range, or returns there. *)
Lemma parse_set_members members :
  forall set rest,
    match members with
    | [] => set <> []
    | t :: members' =>
        (member_tok t = true \/ (set = [] /\ t = Ch "]"))
        /\ Forall (fun t => member_tok t = true) members'
    end ->
    parse_set (members ++ Ch "]" :: rest) set = Raise re_error
    \/ exists set', parse_set (members ++ Ch "]" :: rest) set = Return (set', rest).
Proof.
  induction members as [members IH] using (induction_ltof1 _ (@length token)).
  unfold ltof in IH. intros set rest Hshape.
  destruct members as [|this members1].
  { simpl. destruct set; [done|]. simpl. eauto. }
  destruct Hshape as [Hthis Hrest].
  cbn [app parse_set].
  assert (Hclose : is_tok this "]" && negb (match set with [] => true | _ => false end) = false).
  { destruct Hthis as [Hm|[-> ->]]; [|done].
    by rewrite (member_tok_not_close _ Hm). }
  rewrite Hclose.
  assert (Hcode : exists c, class_code this = Return c).
  { destruct Hthis as [Hm|[_ ->]]; [by apply class_code_member|simpl; eauto]. }
  destruct Hcode as [code1 ->]. rsimpl.
  assert (Hnext : forall set', set' <> [] -> forall ms, length ms < length (this :: members1) ->
            Forall (fun t => member_tok t = true) ms ->
            parse_set (ms ++ Ch "]" :: rest) set' = Raise re_error
            \/ exists set'', parse_set (ms ++ Ch "]" :: rest) set' = Return (set'', rest)).
  { intros set' Hne ms Hlen Hms. apply IH; [done|].
    destruct ms as [|t ms']; [done|].
    apply Forall_cons in Hms as [Ht Hms]. auto. }
  assert (Hne : forall x, set ++ [x] <> []) by (intros x; by destruct set).
  destruct members1 as [|dash members2].
  { simpl. apply (Hnext _ (Hne _) []); [simpl; lia|constructor]. }
  apply Forall_cons in Hrest as [Hdash Hrest].
  cbn [app]. destruct (is_tok dash "-") eqn:Hd.
  - destruct members2 as [|that members3].
    { simpl. eauto. }
    apply Forall_cons in Hrest as [Hthat Hrest].
    cbn [app]. rewrite (member_tok_not_close _ Hthat).
    destruct (class_code_member _ Hthat) as [code2 ->]. rsimpl.
    destruct (ord code2 <? ord code1); [by left|].
    apply (Hnext _ (Hne _) members3); [simpl; lia|done].
  - apply (Hnext _ (Hne _) (dash :: members2)); [simpl; lia|by constructor].
Qed.

Lemma body_tokens_members tail :
  Forall (fun c => is_char c "]" = false) tail ->
  Forall (fun t => member_tok t = true) (map body_token tail).
Proof.
  induction 1 as [|c tail Hc _ IH]; simpl; constructor; [|done].
  unfold body_token. destruct (is_char c backslash); simpl; [done|].
  by rewrite Hc.
Qed.

Lemma tokenize_class_tail body s :
  tokenize (replace body backslash [backslash; backslash] ++ "]"%char :: s) =
    ts ← tokenize s; Return (map body_token body ++ Ch "]" :: ts).
Proof.
  rewrite tokenize_replace, tokenize_char by done. by destruct (tokenize s).
Qed.

Lemma replace_plain c body new :
  is_char c backslash = false ->
  replace (c :: body) backslash new = c :: replace body backslash new.
Proof. intros H. unfold replace. simpl. by rewrite H. Qed.

(** What a class body becomes: the rewritten text, and its tokens. *)
Lemma class_tokens pre tail :
  Forall (fun c => is_char c "]" = false) tail ->
  class_prefix pre tail ->
  exists stuff (negate : bool) members,
    class_stuff (pre ++ tail) = Return stuff
    /\ (forall s, tokenize (stuff ++ "]"%char :: s) =
                 ts ← tokenize s;
                 Return ((if negate then Ch "^" :: members else members)
                         ++ Ch "]" :: ts))
    /\ (negate = false ->
        match members with t :: _ => is_tok t "^" = false | [] => False end)
    /\ match members with
       | [] => False
       | t :: members' =>
           (member_tok t = true \/ t = Ch "]")
           /\ Forall (fun t => member_tok t = true) members'
       end.
Proof.
  intros Hall Hpre. pose proof (body_tokens_members tail Hall) as Hmem.
  destruct Hpre as [tail|c tail|tail|c tail Hbang].
  - exists ("^"%char :: "]"%char :: replace tail backslash [backslash; backslash]),
      true, (Ch "]" :: map body_token tail).
    split; [|split; [|split]]; [| |done|auto].
    + unfold class_stuff. cbn [app list_ascii_of_string].
      by rewrite !replace_plain by done.
    + intros s. cbn [app]. rewrite !tokenize_char by done.
      rewrite tokenize_class_tail. by destruct (tokenize s).
  - exists ("^"%char :: replace (c :: tail) backslash [backslash; backslash]),
      true, (map body_token (c :: tail)).
    split; [|split; [|split]]; [| |done|].
    + unfold class_stuff. cbn [app list_ascii_of_string].
      by rewrite replace_plain by done.
    + intros s. cbn [app]. rewrite tokenize_char by done.
      rewrite tokenize_class_tail. by destruct (tokenize s).
    + cbn [map] in *. apply Forall_cons in Hmem as [? ?]. auto.
  - exists ("]"%char :: replace tail backslash [backslash; backslash]),
      false, (Ch "]" :: map body_token tail).
    split; [|split; [|split]]; [| |done|auto].
    + unfold class_stuff. cbn [app list_ascii_of_string].
      by rewrite !replace_plain by done.
    + intros s. cbn [app]. rewrite !tokenize_char by done.
      rewrite tokenize_class_tail. by destruct (tokenize s).
  - cbn [app]. destruct (is_char c "^") eqn:Hhat.
    + apply is_char_eq in Hhat as ->.
      exists (backslash :: "^"%char :: replace tail backslash [backslash; backslash]),
        false, (Esc "^" :: map body_token tail).
      apply Forall_cons in Hall as [_ Hall].
      split; [|split; [|split]]; [| |done|].
      * unfold class_stuff. by rewrite replace_plain by done.
      * intros s. cbn [app]. rewrite tokenize_backslash.
        rewrite tokenize_class_tail. by destruct (tokenize s).
      * split; [by left|]. by apply body_tokens_members.
    + exists (replace (c :: tail) backslash [backslash; backslash]),
        false, (map body_token (c :: tail)).
      split; [|split; [|split]].
      * unfold class_stuff. destruct (is_char c backslash) eqn:Hbs.
        { apply is_char_eq in Hbs as ->. reflexivity. }
        rewrite replace_plain by done. by rewrite Hbang, Hhat.
      * intros s. cbn [app]. apply tokenize_class_tail.
      * intros _. cbn [map]. unfold body_token.
        destruct (is_char c backslash); [done|]. simpl. done.
      * cbn [map] in *. apply Forall_cons in Hmem as [? ?]. auto.
Qed.

(** A class parses to one set item, unless a range in it is rejected. *)
Lemma parse_from_class (negate : bool) members source subpattern :
  (negate = false ->
   match members with t :: _ => is_tok t "^" = false | [] => False end) ->
  match members with
  | [] => False
  | t :: members' =>
      (member_tok t = true \/ t = Ch "]")
      /\ Forall (fun t => member_tok t = true) members'
  end ->
  let tokens :=
    Ch "[" :: (if negate then Ch "^" :: members else members) ++ Ch "]" :: source in
  parse_from tokens subpattern = Raise re_error
  \/ exists set,
       parse_from tokens subpattern =
         parse_from source (subpattern ++ [Once (IN negate set)]).
Proof.
  intros Hhat Hshape tokens. subst tokens.
  replace ((if negate then Ch "^" :: members else members) ++ Ch "]" :: source)
    with (if negate then Ch "^" :: (members ++ Ch "]" :: source)
          else members ++ Ch "]" :: source) by (by destruct negate).
  rewrite parse_from_set.
  - destruct (parse_set_members members [] source) as [->|[set ->]]; rsimpl; eauto.
    destruct members as [|t members']; [done|].
    destruct Hshape as [[? | ->] ?]; auto.
  - intros ->. specialize (Hhat eq_refl).
    by destruct members as [|t members'].
Qed.

End class_facts.

(** ** What [translate] produces always reaches the parser's verdict *)

Section outcome_facts.
Import re my_fnmatch.

Lemma escape_tokens_head c toks : head_plain (escape_tokens c ++ toks).
Proof.
  unfold escape_tokens. destruct (is_alnum c) eqn:Halnum; simpl.
  - by apply alnum_differs.
  - by destruct (is_char c "000").
Qed.

Lemma skip_stars_suffix rest ms : exists stars, rest = stars ++ (skip_stars rest ms).1.
Proof.
  revert ms. induction rest as [|c rest IH]; intros ms; simpl; [by exists []|].
  destruct (is_char c "*"); [|by exists []].
  destruct (IH true) as [stars Heq]. exists (c :: stars). simpl. by f_equal.
Qed.

Lemma bracket_free_skip_stars rest ms :
  bracket_free rest = true -> bracket_free (skip_stars rest ms).1 = true.
Proof.
  destruct (skip_stars_suffix rest ms) as [stars Heq].
  unfold bracket_free. rewrite Heq at 1. rewrite forallb_app.
  by intros [_ ?]%andb_prop.
Qed.

(** The text produced for the rest of a pattern tokenizes, and its tokens
    parse or are rejected, whatever was parsed before them; without a
    bracket in the pattern they parse. *)
Lemma translate_parses (strict : bool) rest :
  (strict = true -> bracket_free rest = true) ->
  forall ms, exists r toks,
    translate_from rest ms [] = Return r
    /\ tokenize r = Return toks
    /\ head_plain toks
    /\ forall subpattern, outcome strict (parse_from toks subpattern).
Proof.
  induction rest as [rest IH] using pystr_length_ind. intros Hfree ms.
  destruct rest as [|c rest].
  { exists (str "$"), [Ch "$"]. do 3 (split; [done|]).
    intros sub. destruct strict; [|right]; by eexists. }
  assert (IH' : forall rest' ms' piece, length rest' <= length rest ->
            (strict = true -> bracket_free rest' = true) ->
            exists r toks,
              translate_from rest' ms' ([] ++ piece) = Return (piece ++ r)
              /\ tokenize r = Return toks
              /\ head_plain toks
              /\ forall subpattern, outcome strict (parse_from toks subpattern)).
  { intros rest' ms' piece Hlen Hfree'.
    destruct (IH rest' ltac:(simpl; lia) Hfree' ms')
      as (r & toks & Hr & Htok & Hhead & Hparse).
    exists r, toks. rewrite translate_from_res, Hr. done. }
  clear IH.
  assert (Hfree' : strict = true -> bracket_free rest = true).
  { intros Hs. specialize (Hfree Hs). simpl in Hfree. by apply andb_prop in Hfree as [_ ?]. }
  destruct (is_wildcard c) eqn:Hw; [unfold is_wildcard in Hw|].
  - destruct (is_char c "*") eqn:H1.
    { apply is_char_eq in H1 as ->. rewrite translate_from_star.
      pose proof (skip_stars_length rest ms) as Hlen.
      pose proof (bracket_free_skip_stars rest ms) as Hskip.
      destruct (skip_stars rest ms) as [rest' ms']. simpl in Hlen, Hskip.
      destruct (IH' rest' ms' (if ms' then str ".*" else str "[^/]*") Hlen
                  ltac:(auto))
        as (r & toks & -> & Htok & Hhead & Hparse).
      destruct ms'.
      - exists (str ".*" ++ r), (Ch "." :: Ch "*" :: toks).
        split; [done|]. split; [simpl; by rewrite Htok|]. split; [done|].
        intros sub. rewrite parse_from_dot, parse_from_star by done. apply Hparse.
      - exists (str "[^/]*" ++ r),
          (Ch "[" :: Ch "^" :: Ch "/" :: Ch "]" :: Ch "*" :: toks).
        split; [done|]. split; [simpl; by rewrite Htok|]. split; [done|].
        intros sub. rewrite (parse_from_set true) by done.
        cbn [parse_set is_tok is_char class_code]. simpl. rsimpl.
        rewrite parse_from_star by done. apply Hparse. }
    destruct (is_char c "?") eqn:H2.
    { apply is_char_eq in H2 as ->. rewrite translate_from_question.
      destruct (IH' rest ms (str ".") (le_n _) Hfree')
        as (r & toks & -> & Htok & Hhead & Hparse).
      exists (str "." ++ r), (Ch "." :: toks).
      split; [done|]. split; [simpl; by rewrite Htok|]. split; [done|].
      intros sub. rewrite parse_from_dot. apply Hparse. }
    simpl in Hw. apply is_char_eq in Hw as ->.
    assert (strict = false) as ->.
    { destruct strict; [|done]. by specialize (Hfree eq_refl). }
    rewrite translate_from_open.
    cbv zeta. destruct (Nat.leb_spec (length rest) (class_end rest)) as [Hle|Hlt].
    { destruct (IH' rest ms (str "\[") (le_n _) Hfree')
        as (r & toks & -> & Htok & Hhead & Hparse).
      exists (str "\[" ++ r), (Esc "[" :: toks).
      split; [done|]. split; [simpl; by rewrite Htok|]. split; [done|].
      intros sub. rewrite parse_from_escape. apply Hparse. }
    destruct (class_end_split rest Hlt) as (pre & tail & rest' & Hrest & Hj & Hall & Hpre).
    destruct (class_tokens pre tail Hall Hpre)
      as (stuff & negate & members & Hstuff & Htoks & Hhat & Hshape).
    assert (Hbody : firstn (class_end rest) rest = pre ++ tail).
    { rewrite Hj, Hrest, app_assoc. by rewrite firstn_app, firstn_all, Nat.sub_diag,
        firstn_O, app_nil_r. }
    assert (Hafter : skipn (S (class_end rest)) rest = rest').
    { rewrite Hj, Hrest, app_assoc.
      rewrite skipn_app, skipn_all2 by lia.
      replace (S (length (pre ++ tail)) - length (pre ++ tail)) with 1 by lia.
      done. }
    rewrite Hbody, Hstuff, Hafter. rsimpl.
    assert (Hlen : length rest' <= length rest).
    { rewrite <- Hafter, length_skipn. lia. }
    destruct (IH' rest' ms (str "[" ++ stuff ++ str "]") Hlen ltac:(done))
      as (r & toks & -> & Htok & Hhead & Hparse).
    exists ((str "[" ++ stuff ++ str "]") ++ r),
      (Ch "[" :: (if negate then Ch "^" :: members else members) ++ Ch "]" :: toks).
    split; [done|]. split; [|split; [done|]].
    + rewrite <- !app_assoc. cbn [app list_ascii_of_string].
      rewrite tokenize_char, Htoks, Htok by done. done.
    + intros sub.
      destruct (parse_from_class negate members toks sub Hhat Hshape)
        as [->|[set ->]]; [by left|apply Hparse].
  - rewrite translate_from_other by done.
    destruct (IH' rest ms (escape [c]) (le_n _) Hfree')
      as (r & toks & -> & Htok & Hhead & Hparse).
    exists (escape [c] ++ r), (escape_tokens c ++ toks).
    split; [done|]. split; [|split; [apply escape_tokens_head|]].
    + unfold escape. cbn [flat_map]. rewrite app_nil_r.
      by rewrite tokenize_escape_char, Htok.
    + intros sub. rewrite parse_from_literal. apply Hparse.
Qed.

Lemma compiled_of_strict (strict : bool) pat :
  (strict = true -> bracket_free pat = true) -> outcome strict (compiled_of pat).
Proof.
  intros Hfree. unfold compiled_of, translate.
  destruct (translate_parses strict pat Hfree false)
    as (r & toks & Hr & Htok & _ & Hparse).
  unfold translate_from in Hr. rewrite Hr. rsimpl.
  unfold parse. rewrite Htok. rsimpl. apply Hparse.
Qed.

(** [re.compile(translate(pat))] returns a pattern or raises [re.error]:
    the model never runs out of fuel nor leaves the embedded part of [re],
    and [translate] raises nothing itself. *)
Lemma compiled_of_outcome pat : compiles_or_rejects (compiled_of pat).
Proof. by apply (compiled_of_strict false). Qed.

(** Without a bracket in the pattern, [re.compile] accepts. *)
Lemma compiled_of_bracket_free pat :
  bracket_free pat = true -> exists c, compiled_of pat = Return c.
Proof. intros H. by apply (compiled_of_strict true). Qed.

End outcome_facts.

(** ** The entry points, evaluated *)

Section entry_facts.
Import my_fnmatch.

Lemma cache_ok_compilations w n : cache_ok w -> cache_ok (World (_cache w) n).
Proof. intros Hok pat v. apply Hok. Qed.

(** A lookup-or-compile followed by a pure computation on the matcher. *)
Lemma lookup_then_pure w pat (A : Type) (f : re.pattern -> A) :
  cache_ok w ->
  let m : py A :=
    cached ← cache_contains pat;
    (if negb cached then
       res ← lift (translate pat);
       compiled ← re_compile res;
       cache_setitem pat compiled
     else ret tt);;
    compiled ← cache_getitem pat;
    ret (f compiled) in
  (m w).1 = (compiled ← compiled_of pat; Return (f compiled))
  /\ cache_ok (m w).2
  /\ compilations w <= compilations (m w).2 <= S (compilations w).
Proof.
  intros Hok m.
  pose proof (lookup_or_compile w pat A (fun c => ret (f c)) Hok) as H.
  cbv beta zeta in H. subst m.
  destruct (compiled_of_outcome pat) as [Hc|[c Hc]]; rewrite Hc in H |- *.
  - destruct H as [-> _]. simpl. split; [done|]. split; [|lia].
    by apply cache_ok_compilations.
  - destruct H as (w' & -> & Hok' & Hn). done.
Qed.

Lemma fnmatchcase_eval w name pat :
  cache_ok w ->
  (fnmatchcase name pat w).1 = fnmatchcase_value name pat
  /\ cache_ok (fnmatchcase name pat w).2
  /\ compilations w <= compilations (fnmatchcase name pat w).2 <= S (compilations w).
Proof. intros Hok. apply (lookup_then_pure w pat bool _ Hok). Qed.

Lemma filter_eval w os names pat :
  cache_ok w ->
  (filter os names pat w).1 = filter_value os names pat
  /\ cache_ok (filter os names pat w).2
  /\ compilations w <= compilations (filter os names pat w).2 <= S (compilations w).
Proof.
  intros Hok. unfold filter, filter_value.
  destruct (is_posixpath os).
  - apply (lookup_then_pure w (normcase os pat) _
             (fun c => List.filter (fun name => re.match_ c name) names) Hok).
  - apply (lookup_then_pure w (normcase os pat) _
             (fun c => List.filter (fun name => re.match_ c (normcase os name)) names) Hok).
Qed.

Lemma initial_cache_ok : cache_ok initial_world.
Proof. intros pat v. simpl. by rewrite lookup_empty. Qed.

(** The cache only ever holds compiled translations of its keys. *)
Lemma reachable_cache_ok w : reachable w -> cache_ok w.
Proof.
  induction 1 as [|w name pat _ IH|w name pat _ IH|w os names pat _ IH].
  - apply initial_cache_ok.
  - by apply fnmatchcase_eval.
  - by apply (fnmatchcase_eval w (lower name) (lower pat)).
  - by apply filter_eval.
Qed.

Lemma fnmatchcase_reachable w name pat :
  reachable w -> (fnmatchcase name pat w).1 = fnmatchcase_value name pat.
Proof. intros Hw. by apply fnmatchcase_eval, reachable_cache_ok. Qed.

Lemma fnmatchcase_value_outcome name pat :
  compiles_or_rejects (fnmatchcase_value name pat).
Proof.
  unfold fnmatchcase_value.
  destruct (compiled_of_outcome pat) as [->|[c ->]]; [by left|right; by eexists].
Qed.

End entry_facts.

(** ** The claims *)

Section claims.
Import re my_fnmatch.

(** C1.  Star runs.  The claim gives every run of exactly one [*] the
    instruction that stops at [/], whatever its position.  In the code
    [multistars] is set by the first run of two or more stars and never
    cleared, so every later run, also one of a single star, is translated
    to [.*]: [translate("**a*")] is [.*a.*$] and
    [fnmatchcase("a/", "**a*")] is true, although the single star would
    have to cross the [/].  The three examples of the claim hold. *)
Theorem C1_multistars_is_never_reset :
  translate (str "**a*") = Return (str ".*a.*$")
  /\ run (fnmatchcase (str "a/") (str "**a*")) = Return true
  /\ (forall rest res,
        translate_from ("*"%char :: rest) true res =
          translate_from (skip_stars rest true).1 true (res ++ str ".*"))
  /\ run (fnmatchcase (str "a/b") (str "a*b")) = Return false
  /\ run (fnmatchcase (str "a/b") (str "a**b")) = Return true
  /\ run (fnmatchcase (str "ab") (str "a*b")) = Return true.
Proof.
  split; [reflexivity|]. split; [reflexivity|]. split; [|by vm_compute].
  intros rest res. rewrite translate_from_star.
  assert (H : forall s, (skip_stars s true).2 = true).
  { induction s as [|c s IH]; [done|]. simpl. by destruct (is_char c "*"). }
  specialize (H rest). destruct (skip_stars rest true) as [rest' ms'].
  simpl in *. by subst ms'.
Qed.

(** C2, as stated, fails: the pattern [a] has no wildcard and matches the
    candidate [a] followed by a newline. *)
Lemma C2_counterexample :
  literal_pattern (str "a") = true
  /\ ~ (run (fnmatchcase (str "a" ++ [newline]) (str "a")) = Return true
        <-> str "a" ++ [newline] = str "a").
Proof. split; [reflexivity|]. intros [H _]. by specialize (H eq_refl). Qed.

(** C2, amended.  For a pattern [pat] without [*], [?] and [[], in any
    state the module can be in, [fnmatchcase(name, pat)] returns a boolean,
    which is true exactly when [name] is [pat], or [pat] followed by one
    newline (the [$] that ends the translation matches before a final
    newline). *)
Theorem C2_literal_pattern_matches_itself w name pat :
  reachable w ->
  literal_pattern pat = true ->
  exists b, (fnmatchcase name pat w).1 = Return b
       /\ (b = true <-> name = pat \/ name = pat ++ [newline]).
Proof.
  intros Hw Hlit. rewrite fnmatchcase_reachable by done.
  unfold fnmatchcase_value. rewrite compiled_of_literal by done. rsimpl.
  eexists. split; [reflexivity|]. apply matches_here_literals.
Qed.

Lemma C2_literal_pattern_witness :
  exists b, (fnmatchcase (str "My/Repos") (str "My/Repos") initial_world).1 = Return b
       /\ (b = true <-> str "My/Repos" = str "My/Repos"
                        \/ str "My/Repos" = str "My/Repos" ++ [newline]).
Proof.
  apply (C2_literal_pattern_matches_itself initial_world (str "My/Repos") (str "My/Repos")).
  - constructor.
  - reflexivity.
Defined.

(** C3, as stated, fails: it makes [?] refuse every string of two or more
    characters, and [?] matches the two-character candidate [a] followed
    by a newline. *)
Lemma C3_counterexample :
  2 <= length (str "a" ++ [newline])
  /\ run (fnmatchcase (str "a" ++ [newline]) (str "?")) = Return true.
Proof. split; [simpl; lia|reflexivity]. Qed.

Lemma compiled_of_question : compiled_of (str "?") = Return [Once ANY; AT_END].
Proof. reflexivity. Qed.

(** C3, amended.  In any state the module can be in, the pattern [?]
    matches every one-character candidate other than a newline, [/]
    included, and also such a character followed by one final newline
    (the [$] that ends the translation matches before a final newline);
    it does not match the empty string, nor any other string of two or
    more characters.  Nothing is said of the candidate made of a single
    newline. *)
Theorem C3_question_mark_matches_one_character w :
  reachable w ->
  (forall c, c <> newline ->
     (fnmatchcase [c] (str "?") w).1 = Return true
     /\ (fnmatchcase [c; newline] (str "?") w).1 = Return true)
  /\ (fnmatchcase (str "/") (str "?") w).1 = Return true
  /\ (fnmatchcase [] (str "?") w).1 = Return false
  /\ (forall s, 2 <= length s ->
        (forall c, c <> newline -> s <> [c; newline]) ->
        (fnmatchcase s (str "?") w).1 = Return false).
Proof.
  intros Hw.
  assert (Heval : forall s, (fnmatchcase s (str "?") w).1
                            = Return (match_ [Once ANY; AT_END] s)).
  { intros s. rewrite fnmatchcase_reachable by done.
    unfold fnmatchcase_value. by rewrite compiled_of_question. }
  split; [|split; [|split]].
  - intros c Hc. rewrite !Heval. apply is_char_neq in Hc.
    unfold match_. simpl. rewrite Hc. done.
  - by rewrite Heval.
  - by rewrite Heval.
  - intros s Hlen Hs. rewrite Heval. f_equal.
    destruct s as [|c [|d t]]; [simpl in Hlen; lia..|].
    unfold match_. simpl.
    destruct (is_char c newline) eqn:Hc; [done|]. simpl.
    rewrite andb_true_r. destruct t as [|e t]; [|done].
    apply is_char_neq. intros ->. apply is_char_neq in Hc. by apply (Hs c).
Qed.

Lemma C3_question_mark_witness :
  (fnmatchcase (str "a") (str "?") initial_world).1 = Return true
  /\ (fnmatchcase (str "ab") (str "?") initial_world).1 = Return false
  /\ (fnmatchcase [newline; newline] (str "?") initial_world).1 = Return false.
Proof.
  destruct (C3_question_mark_matches_one_character initial_world reach_initial)
    as (Hone & _ & _ & Hmore).
  split; [|split].
  - apply (Hone "a"%char). discriminate.
  - apply (Hmore (str "ab")); [simpl; lia|]. intros c _. discriminate.
  - apply (Hmore [newline; newline]); [simpl; lia|].
    intros c Hc [= Heq]. by apply Hc.
Defined.

Lemma lower_char_bracket c : is_char c "[" = false -> is_char (lower_char c) "[" = false.
Proof.
  intros Hc. unfold lower_char. destruct (is_upper c) eqn:Hup; [|done].
  apply is_char_neq. intros Heq.
  unfold is_upper, in_range in Hup. apply andb_prop in Hup as [Hlo Hhi].
  apply Nat.leb_le in Hlo, Hhi.
  apply (f_equal ord) in Heq. unfold ord in Heq at 1.
  rewrite nat_ascii_embedding in Heq by lia.
  change (ord "[") with 91 in Heq. lia.
Qed.

Lemma lower_bracket_free pat : bracket_free pat = true -> bracket_free (lower pat) = true.
Proof.
  unfold bracket_free, lower. induction pat as [|c pat IH]; [done|]. simpl.
  intros [Hc Hpat]%andb_prop. apply negb_true_iff in Hc.
  by rewrite (lower_char_bracket c Hc), IH.
Qed.

(** C4, as stated, fails: a class with a reversed range makes [re.compile]
    raise, and the empty pattern matches the candidate made of a newline. *)
Lemma C4_counterexample :
  run (fnmatchcase (str "a") (str "[z-a]")) = Raise re_error
  /\ ~ (run (fnmatchcase [newline] []) = Return true <-> [newline] = []).
Proof. split; [reflexivity|]. intros [H _]. by specialize (H eq_refl). Qed.

(** C4, amended.  [translate] returns a string for every pattern.  In any
    state the module can be in, [fnmatchcase], [fnmatch] and [filter]
    return a value or raise [re.error], and nothing else; they raise
    exactly when [re.compile] rejects the translated pattern, which never
    happens for a pattern without [[].  The empty pattern matches the
    empty candidate and the candidate made of one newline, and no other. *)
Theorem C4_entry_points_return_or_raise_re_error w os name names pat :
  reachable w ->
  (exists res, translate pat = Return res)
  /\ compiles_or_rejects (fnmatchcase name pat w).1
  /\ compiles_or_rejects (fnmatch name pat w).1
  /\ compiles_or_rejects (filter os names pat w).1
  /\ ((fnmatchcase name pat w).1 = Raise re_error
      <-> compiled_of pat = Raise re_error)
  /\ ((fnmatch name pat w).1 = Raise re_error
      <-> compiled_of (lower pat) = Raise re_error)
  /\ ((filter os names pat w).1 = Raise re_error
      <-> compiled_of (normcase os pat) = Raise re_error)
  /\ (bracket_free pat = true ->
      (exists b, (fnmatchcase name pat w).1 = Return b)
      /\ (exists b, (fnmatch name pat w).1 = Return b)
      /\ (exists l, (filter posixpath names pat w).1 = Return l))
  /\ ((fnmatchcase name [] w).1 = Return true <-> name = [] \/ name = [newline]).
Proof.
  intros Hw. pose proof (reachable_cache_ok w Hw) as Hok.
  split; [apply translate_returns|].
  split; [rewrite fnmatchcase_reachable by done; apply fnmatchcase_value_outcome|].
  split.
  { unfold fnmatch. rewrite fnmatchcase_reachable by done.
    apply fnmatchcase_value_outcome. }
  split.
  { destruct (filter_eval w os names pat Hok) as [-> _]. unfold filter_value.
    destruct (compiled_of_outcome (normcase os pat)) as [->|[c ->]];
      [by left|right; by eexists]. }
  split.
  { rewrite fnmatchcase_reachable by done. unfold fnmatchcase_value.
    destruct (compiled_of pat) as [c|e|y]; rsimpl; split; congruence. }
  split.
  { unfold fnmatch. rewrite fnmatchcase_reachable by done. unfold fnmatchcase_value.
    destruct (compiled_of (lower pat)) as [c|e|y]; rsimpl; split; congruence. }
  split.
  { destruct (filter_eval w os names pat Hok) as [-> _]. unfold filter_value.
    destruct (compiled_of (normcase os pat)) as [c|e|y]; rsimpl; split; congruence. }
  split.
  { intros Hfree. split; [|split].
    - rewrite fnmatchcase_reachable by done. unfold fnmatchcase_value.
      destruct (compiled_of_bracket_free pat Hfree) as [c ->]. by eexists.
    - unfold fnmatch. rewrite fnmatchcase_reachable by done. unfold fnmatchcase_value.
      destruct (compiled_of_bracket_free _ (lower_bracket_free pat Hfree)) as [c ->].
      by eexists.
    - destruct (filter_eval w posixpath names pat Hok) as [-> _]. unfold filter_value.
      simpl normcase.
      destruct (compiled_of_bracket_free pat Hfree) as [c ->]. by eexists. }
  rewrite fnmatchcase_reachable by done. unfold fnmatchcase_value.
  rewrite (compiled_of_literal []) by done. rsimpl.
  split.
  - intros [= H]. by apply (matches_here_literals [] name).
  - intros H. f_equal. by apply (matches_here_literals [] name).
Qed.

Lemma C4_entry_points_witness :
  (exists res, translate (str "*.py") = Return res)
  /\ (exists b, (fnmatchcase (str "a.py") (str "*.py") initial_world).1 = Return b)
  /\ (exists l, (filter posixpath [str "a.py"; str "b.txt"] (str "*.py")
                  initial_world).1 = Return l).
Proof.
  destruct (C4_entry_points_return_or_raise_re_error initial_world posixpath
              (str "a.py") [str "a.py"; str "b.txt"] (str "*.py") reach_initial)
    as (Htr & _ & _ & _ & _ & _ & _ & Hfree & _).
  destruct (Hfree eq_refl) as (Hcase & _ & Hfilter).
  auto.
Defined.

(** C5.  [fnmatch] is [fnmatchcase] on lower-cased copies of both
    arguments, in every state: it is the case-insensitive entry point the
    specification describes.  On the three examples of the claim the two
    entry points give true, false and true. *)
Theorem C5_fnmatch_is_fnmatchcase_of_lowered :
  (forall name pat w, fnmatch name pat w = matchCaseInsensitive name pat w)
  /\ (forall name pat w,
        fnmatch name pat w = fnmatchcase (lower name) (lower pat) w)
  /\ lower (str "My/Repos") = str "my/repos"
  /\ run (fnmatch (str "My/Repos") (str "m**")) = Return true
  /\ run (fnmatchcase (str "My/Repos") (str "m**")) = Return false
  /\ run (fnmatchcase (str "My/Repos") (str "M**")) = Return true.
Proof. repeat split; reflexivity. Qed.

(** C6, as stated, fails: for the empty list of names and a pattern that
    [re.compile] rejects, the names on which [fnmatchcase] is true make the
    empty list, and [filter] returns nothing: it raises [re.error]. *)
Lemma C6_counterexample :
  run (filter posixpath [] (str "[z-a]")) = Raise re_error
  /\ run (filter posixpath [] (str "[z-a]"))
     <> Return (List.filter
                  (fun name => returns_true (run (fnmatchcase name (str "[z-a]"))))
                  []).
Proof. split; [reflexivity|discriminate]. Qed.

(** C6, amended.  On POSIX, where [normcase] is the identity, in any state
    the module can be in: either [fnmatchcase] returns for the pattern,
    whatever the name, and [filter(names, pat)] returns the names for
    which [fnmatchcase(name, pat)] is true, in their order in [names]; or
    [re.compile] rejects the translated pattern and both [filter], even
    for an empty list of names, and [fnmatchcase] raise [re.error].  The
    first case is the one of every pattern without [[].  The whole call
    makes at most one call of [re.compile]. *)
Theorem C6_filter_posix_keeps_matching_names w names pat :
  reachable w ->
  (((forall name, exists b, (fnmatchcase name pat w).1 = Return b)
    /\ (filter posixpath names pat w).1
       = Return (List.filter
                   (fun name => returns_true (fnmatchcase name pat w).1) names))
   \/ ((forall name, (fnmatchcase name pat w).1 = Raise re_error)
       /\ (filter posixpath names pat w).1 = Raise re_error))
  /\ (bracket_free pat = true ->
      (filter posixpath names pat w).1
      = Return (List.filter
                  (fun name => returns_true (fnmatchcase name pat w).1) names))
  /\ compilations w <= compilations (filter posixpath names pat w).2
     <= S (compilations w)
  /\ run (filter posixpath [str "abc"; str "abd"; str "xyz"] (str "ab?"))
     = Return [str "abc"; str "abd"].
Proof.
  intros Hw. pose proof (reachable_cache_ok w Hw) as Hok.
  destruct (filter_eval w posixpath names pat Hok) as (-> & _ & Hn).
  unfold filter_value. simpl normcase. simpl is_posixpath.
  assert (Hret : forall c, compiled_of pat = Return c ->
            (forall name, exists b, (fnmatchcase name pat w).1 = Return b)
            /\ (p ← compiled_of pat;
                Return (List.filter (fun name => match_ p name) names))
               = Return (List.filter
                           (fun name => returns_true (fnmatchcase name pat w).1)
                           names)).
  { intros c Hc. split.
    - intros name. rewrite fnmatchcase_reachable by done.
      unfold fnmatchcase_value. rewrite Hc. by eexists.
    - rewrite Hc. rsimpl. f_equal.
      apply List.filter_ext. intros name. rewrite fnmatchcase_reachable by done.
      unfold fnmatchcase_value. rewrite Hc. rsimpl. simpl.
      by destruct (match_ c name). }
  split; [|split; [|by split]].
  - destruct (compiled_of_outcome pat) as [Hc|[c Hc]].
    + right. split; [|by rewrite Hc].
      intros name. rewrite fnmatchcase_reachable by done.
      unfold fnmatchcase_value. by rewrite Hc.
    + left. by apply (Hret c).
  - intros Hfree. destruct (compiled_of_bracket_free pat Hfree) as [c Hc].
    by apply (Hret c).
Qed.

Lemma C6_filter_posix_witness :
  (filter posixpath [str "abc"; str "abd"; str "xyz"] (str "ab?") initial_world).1
  = Return (List.filter
              (fun name => returns_true (fnmatchcase name (str "ab?") initial_world).1)
              [str "abc"; str "abd"; str "xyz"]).
Proof.
  destruct (C6_filter_posix_keeps_matching_names initial_world
              [str "abc"; str "abd"; str "xyz"] (str "ab?") reach_initial)
    as (_ & Hfree & _).
  apply Hfree. reflexivity.
Defined.

Lemma translate_from_literal_prefix pre rest :
  forall ms res,
    literal_pattern pre = true ->
    translate_from (pre ++ rest) ms res = translate_from rest ms (res ++ escape pre).
Proof.
  induction pre as [|c pre IH]; intros ms res Hlit.
  - simpl. by rewrite app_nil_r.
  - simpl in Hlit. apply andb_prop in Hlit as [Hc Hlit]. apply negb_true_iff in Hc.
    cbn [app]. rewrite translate_from_other, IH by done.
    f_equal. unfold escape. simpl. rewrite app_nil_r. by rewrite <- app_assoc.
Qed.

Lemma compiled_of_escaped pat :
  translate pat = Return (escape pat ++ str "$") ->
  compiled_of pat = Return (map (fun c => Once (LITERAL c)) pat ++ [AT_END]).
Proof.
  intros Htr. unfold compiled_of. rewrite Htr. rsimpl.
  unfold parse. rewrite tokenize_escape. simpl tokenize. rsimpl.
  rewrite parse_from_fuel by done.
  rewrite parse_from_literals, parse_from_dollar. done.
Qed.

Lemma find_close_reaches_end s :
  forall j n, n = j + length s ->
    (n <= find_close s j <-> no_char "]" s = true).
Proof.
  induction s as [|c s IH]; intros j n ->; simpl.
  - split; [done|lia].
  - destruct (is_char c "]"); simpl.
    + split; [lia|done].
    + apply IH. lia.
Qed.

(** The scan of the code reaches the end of the pattern exactly on the
    texts that are left open. *)
Lemma unterminated_spec post :
  unterminated post = true <-> length post <= class_end post.
Proof.
  unfold unterminated, class_end, char_at. symmetry.
  destruct post as [|c rest]; [simpl; split; [done|lia]|].
  cbn [nth_error skip_one]. destruct (is_char c "!") eqn:Hbang.
  - destruct rest as [|d rest']; cbn [nth_error skip_one].
    + simpl. split; [done|lia].
    + destruct (is_char d "]") eqn:Hd.
      * rewrite !skipn_cons, skipn_O. apply find_close_reaches_end. simpl. lia.
      * rewrite skipn_cons, skipn_O. apply find_close_reaches_end. simpl. lia.
  - cbn [nth_error skip_one]. destruct (is_char c "]") eqn:Hc.
    + rewrite skipn_cons, skipn_O. apply find_close_reaches_end. simpl. lia.
    + rewrite skipn_O. apply find_close_reaches_end. simpl. lia.
Qed.

(** C7.  Take a [[] that the loop of [translate] reaches, followed by a
    text that is left open: with one leading [!] and then one leading []]
    set aside, it holds no []].  Then the scan of the code reaches the end
    of the pattern, the loop emits an escaped bracket and goes on with the
    character after the [[], and the parser of [re] reads the escaped
    bracket as the literal character [[], which matches [[] only: neither
    an error nor a class.  So a pattern made of literal characters around
    such a [[] matches the candidates equal to it (and those with one more
    final newline), as [a[b] does. *)
Theorem C7_unterminated_class_is_literal pre post :
  unterminated post = true ->
  length post <= class_end post
  /\ (forall ms res,
        translate_from ("["%char :: post) ms res =
          translate_from post ms (res ++ str "\["))
  /\ (forall source subpattern,
        parse_from (Esc "[" :: source) subpattern =
          parse_from source (subpattern ++ [Once (LITERAL "[")]))
  /\ (forall c, item_matches (LITERAL "[") c = true <-> c = "["%char)
  /\ (literal_pattern pre = true -> literal_pattern post = true ->
      forall w name, reachable w ->
        exists b, (fnmatchcase name (pre ++ "["%char :: post) w).1 = Return b
             /\ (b = true <-> name = pre ++ "["%char :: post
                              \/ name = (pre ++ "["%char :: post) ++ [newline]))
  /\ run (fnmatchcase (str "a[b") (str "a[b")) = Return true.
Proof.
  intros Htext. pose proof (proj1 (unterminated_spec post) Htext) as Hopen.
  assert (Hstep : forall ms res,
            translate_from ("["%char :: post) ms res =
              translate_from post ms (res ++ str "\[")).
  { intros ms res. rewrite translate_from_open. cbv zeta.
    by rewrite (proj2 (Nat.leb_le _ _) Hopen). }
  split; [done|].
  split; [done|]. split; [intros; by rewrite parse_from_escape|].
  split; [intros c; apply is_char_eq|]. split; [|reflexivity].
  intros Hpre Hpost w name Hw. rewrite fnmatchcase_reachable by done.
  unfold fnmatchcase_value. rewrite compiled_of_escaped.
  - rsimpl. eexists. split; [reflexivity|]. apply matches_here_literals.
  - unfold translate. rewrite (translate_loop_fuel _ _ _ _ (le_n _)).
    rewrite translate_from_literal_prefix, Hstep, translate_from_literal by done.
    f_equal. unfold escape. rewrite flat_map_app. cbn [flat_map].
    by rewrite <- !app_assoc.
Qed.

Lemma C7_unterminated_class_witness :
  (exists b, (fnmatchcase (str "a[b") (str "a[b") initial_world).1 = Return b
        /\ (b = true <-> str "a[b" = str "a[b" \/ str "a[b" = str "a[b" ++ [newline]))
  /\ (exists b, (fnmatchcase (str "[!]") (str "[!]x") initial_world).1 = Return b
          /\ (b = true <-> str "[!]" = str "[!]x"
                           \/ str "[!]" = str "[!]x" ++ [newline]))
  /\ translate_from (str "[]") false [] = translate_from (str "]") false (str "\[").
Proof.
  split; [|split].
  - destruct (C7_unterminated_class_is_literal (str "a") (str "b") eq_refl)
      as (_ & _ & _ & _ & Hsem & _).
    apply (Hsem eq_refl eq_refl initial_world (str "a[b") reach_initial).
  - destruct (C7_unterminated_class_is_literal [] (str "!]x") eq_refl)
      as (_ & _ & _ & _ & Hsem & _).
    apply (Hsem eq_refl eq_refl initial_world (str "[!]") reach_initial).
  - destruct (C7_unterminated_class_is_literal [] (str "]") eq_refl)
      as (_ & Hstep & _).
    apply (Hstep false []).
Defined.

Lemma compiled_of_class_not_a :
  compiled_of (str "[!a]") = Return [Once (IN true [SetLiteral "a"]); AT_END].
Proof. reflexivity. Qed.

Lemma compiled_of_class_a :
  compiled_of (str "[a]") = Return [Once (IN false [SetLiteral "a"]); AT_END].
Proof. reflexivity. Qed.

Lemma compiled_of_class_hat_a :
  compiled_of (str "[^a]")
  = Return [Once (IN false [SetLiteral "^"; SetLiteral "a"]); AT_END].
Proof. reflexivity. Qed.

(** C8.  In any state the module can be in, for a one-character candidate
    [c]: [[!a]] matches it exactly when [c] is not [a], and [[a]] exactly
    when [c] is [a].  A class body that starts with [!] is rewritten to
    start with [^], which the parser of [re] reads as negation; a class
    body that starts with [^] gets a backslash in front, and the parser
    then reads a set that is not negated and has [^] as a member: [[^a]]
    matches [^] and [a] only. *)
Theorem C8_class_negation w c :
  reachable w ->
  ((fnmatchcase [c] (str "[!a]") w).1 = Return true <-> c <> "a"%char)
  /\ ((fnmatchcase [c] (str "[a]") w).1 = Return true <-> c = "a"%char)
  /\ (forall tail,
        class_stuff ("!"%char :: tail)
        = Return ("^"%char :: replace tail backslash [backslash; backslash]))
  /\ (forall tail,
        class_stuff ("^"%char :: tail)
        = Return (backslash :: "^"%char
                    :: replace tail backslash [backslash; backslash]))
  /\ (forall source subpattern,
        parse_from (Ch "[" :: Ch "^" :: source) subpattern =
          '(set, source') ← parse_set source [];
          parse_from source' (subpattern ++ [Once (IN true set)]))
  /\ (forall source subpattern,
        parse_from (Ch "[" :: Esc "^" :: source) subpattern =
          '(set, source') ← parse_set (Esc "^" :: source) [];
          parse_from source' (subpattern ++ [Once (IN false set)]))
  /\ translate (str "[^a]") = Return (str "[\^a]$")
  /\ ((fnmatchcase [c] (str "[^a]") w).1 = Return true
      <-> c = "^"%char \/ c = "a"%char).
Proof.
  intros Hw.
  assert (Heval : forall pat p, compiled_of pat = Return p ->
            (fnmatchcase [c] pat w).1 = Return (match_ p [c])).
  { intros pat p Hp. rewrite fnmatchcase_reachable by done.
    unfold fnmatchcase_value. by rewrite Hp. }
  split; [|split; [|split; [|split; [|split; [|split; [|split]]]]]].
  - rewrite (Heval _ _ compiled_of_class_not_a). unfold match_. simpl.
    rewrite orb_false_r, andb_true_r. rewrite <- is_char_neq.
    destruct (is_char c "a"); simpl; split; congruence.
  - rewrite (Heval _ _ compiled_of_class_a). unfold match_. simpl.
    rewrite orb_false_r, andb_true_r. rewrite <- is_char_eq.
    destruct (is_char c "a"); simpl; split; congruence.
  - intros tail. unfold class_stuff. by rewrite replace_plain.
  - intros tail. unfold class_stuff. by rewrite replace_plain.
  - intros source sub. by rewrite (parse_from_set true source).
  - intros source sub. by rewrite (parse_from_set false (Esc "^" :: source)).
  - reflexivity.
  - rewrite (Heval _ _ compiled_of_class_hat_a). unfold match_. simpl.
    rewrite orb_false_r, andb_true_r. rewrite <- !is_char_eq.
    destruct (is_char c "^"), (is_char c "a"); simpl; split; try congruence; auto.
    by intros [|].
Qed.

Lemma C8_class_negation_witness :
  ((fnmatchcase (str "b") (str "[!a]") initial_world).1 = Return true
   <-> "b"%char <> "a"%char)
  /\ ((fnmatchcase (str "b") (str "[a]") initial_world).1 = Return true
      <-> "b"%char = "a"%char).
Proof.
  destruct (C8_class_negation initial_world "b"%char reach_initial)
    as (Hnot & Hin & _).
  by split.
Defined.

(** C9.  In any state the module can be in, whatever [_cache] holds,
    [fnmatchcase(name, pat)] gives what it gives on a fresh interpreter
    with an empty cache. *)
Theorem C9_result_independent_of_cache w name pat :
  reachable w ->
  (fnmatchcase name pat w).1 = run (fnmatchcase name pat).
Proof.
  intros Hw. unfold run.
  rewrite !fnmatchcase_reachable by (done || constructor). done.
Qed.

Lemma C9_cache_witness :
  (fnmatchcase (str "a/b") (str "a*")
     (filter posixpath [str "x"] (str "a*")
        (fnmatchcase (str "abc") (str "a*") initial_world).2).2).1
  = run (fnmatchcase (str "a/b") (str "a*")).
Proof.
  apply (C9_result_independent_of_cache _ (str "a/b") (str "a*")).
  apply reach_filter, reach_fnmatchcase, reach_initial.
Defined.

Lemma compiled_of_bang_only :
  compiled_of (str "[!]")
  = Return [Once (LITERAL "["); Once (LITERAL "!"); Once (LITERAL "]"); AT_END].
Proof. reflexivity. Qed.

(** C10.  For the pattern [[!]] the scan skips the [!] and the []] after
    it and reaches the end of the pattern, so the [[] is translated as a
    literal and [!] and []] after it as well: no negated set is compiled.
    In any state the module can be in, the pattern matches the candidate
    [[!]] and no one-character candidate. *)
Theorem C10_bang_only_class_is_literal w :
  reachable w ->
  class_end (str "!]") = 2
  /\ translate (str "[!]") = Return (str "\[\!\]$")
  /\ compiled_of (str "[!]")
     = Return [Once (LITERAL "["); Once (LITERAL "!"); Once (LITERAL "]"); AT_END]
  /\ (fnmatchcase (str "[!]") (str "[!]") w).1 = Return true
  /\ (forall c, (fnmatchcase [c] (str "[!]") w).1 = Return false).
Proof.
  intros Hw. do 3 (split; [reflexivity|]).
  assert (Heval : forall s, (fnmatchcase s (str "[!]") w).1
            = Return (match_ [Once (LITERAL "["); Once (LITERAL "!");
                              Once (LITERAL "]"); AT_END] s)).
  { intros s. rewrite fnmatchcase_reachable by done.
    unfold fnmatchcase_value. by rewrite compiled_of_bang_only. }
  split; [by rewrite Heval|].
  intros c. rewrite Heval. unfold match_. simpl. by rewrite andb_false_r.
Qed.

Lemma C10_bang_only_witness :
  (fnmatchcase (str "[!]") (str "[!]") initial_world).1 = Return true
  /\ (fnmatchcase (str "x") (str "[!]") initial_world).1 = Return false.
Proof.
  destruct (C10_bang_only_class_is_literal initial_world reach_initial)
    as (_ & _ & _ & Hself & Hone).
  split; [done|apply (Hone "x"%char)].
Defined.

End claims.

(** ** Further properties: the cache *)

Section cache_properties.
Import re my_fnmatch.

(** What a lookup-or-compile followed by a pure computation does, in any
    state. *)
Lemma lookup_then_pure_run w pat (A : Type) (f : re.pattern -> A) :
  let m : py A :=
    cached ← cache_contains pat;
    (if negb cached then
       res ← lift (translate pat);
       compiled ← re_compile res;
       cache_setitem pat compiled
     else ret tt);;
    compiled ← cache_getitem pat;
    ret (f compiled) in
  m w =
    match _cache w !! pat with
    | Some v => (Return (f v), w)
    | None =>
        match compiled_of pat with
        | Return c =>
            (Return (f c), World (<[pat := c]> (_cache w)) (S (compilations w)))
        | Raise e => (Raise e, World (_cache w) (S (compilations w)))
        | Stuck y => (Stuck y, World (_cache w) (S (compilations w)))
        end
    end.
Proof.
  intros m. subst m.
  unfold mbind, py_bind, bind, cache_contains, cache_getitem, cache_setitem,
    re_compile, lift, ret. simpl.
  destruct (_cache w !! pat) as [v|] eqn:Hlook.
  - rewrite bool_decide_eq_true_2 by eauto. simpl. by rewrite Hlook.
  - rewrite bool_decide_eq_false_2 by (intros [? ?]; done). simpl.
    unfold compiled_of.
    destruct (translate_returns pat) as [res Htr]. rewrite Htr. rsimpl.
    destruct (re.parse res) as [c| |] eqn:Hparse; simpl; [|done..].
    by rewrite lookup_insert_eq.
Qed.

Lemma fnmatchcase_run w name pat :
  fnmatchcase name pat w =
    match _cache w !! pat with
    | Some v => (Return (match_ v name), w)
    | None =>
        match compiled_of pat with
        | Return c =>
            (Return (match_ c name),
             World (<[pat := c]> (_cache w)) (S (compilations w)))
        | Raise e => (Raise e, World (_cache w) (S (compilations w)))
        | Stuck y => (Stuck y, World (_cache w) (S (compilations w)))
        end
    end.
Proof. apply (lookup_then_pure_run w pat bool (fun c => match_ c name)). Qed.

Lemma filter_run w os names pat :
  filter os names pat w =
    let select c :=
      List.filter
        (fun name => match_ c (if is_posixpath os then name else normcase os name))
        names in
    match _cache w !! normcase os pat with
    | Some v => (Return (select v), w)
    | None =>
        match compiled_of (normcase os pat) with
        | Return c =>
            (Return (select c),
             World (<[normcase os pat := c]> (_cache w)) (S (compilations w)))
        | Raise e => (Raise e, World (_cache w) (S (compilations w)))
        | Stuck y => (Stuck y, World (_cache w) (S (compilations w)))
        end
    end.
Proof.
  unfold filter. cbv zeta. destruct (is_posixpath os).
  - apply (lookup_then_pure_run w (normcase os pat) _
             (fun c => List.filter (fun name => match_ c name) names)).
  - apply (lookup_then_pure_run w (normcase os pat) _
             (fun c => List.filter (fun name => match_ c (normcase os name)) names)).
Qed.

(** An entry of [_cache] is never removed nor replaced: whatever the
    state, every entry point leaves each existing entry as it was. *)
Theorem cache_entries_are_kept w key v :
  _cache w !! key = Some v ->
  (forall name pat, _cache (fnmatchcase name pat w).2 !! key = Some v)
  /\ (forall name pat, _cache (fnmatch name pat w).2 !! key = Some v)
  /\ (forall os names pat, _cache (filter os names pat w).2 !! key = Some v).
Proof.
  intros Hkey.
  assert (Hcase : forall name pat, _cache (fnmatchcase name pat w).2 !! key = Some v).
  { intros name pat. rewrite fnmatchcase_run.
    destruct (_cache w !! pat) as [c|] eqn:Hpat; [done|].
    destruct (compiled_of pat); simpl; [|done..].
    rewrite lookup_insert_ne; [done|]. intros ->. congruence. }
  split; [done|]. split; [intros name pat; apply Hcase|].
  intros os names pat. rewrite filter_run. cbv zeta.
  destruct (_cache w !! normcase os pat) as [c|] eqn:Hpat; [done|].
  destruct (compiled_of (normcase os pat)); simpl; [|done..].
  rewrite lookup_insert_ne; [done|]. intros Heq. rewrite Heq in Hpat. congruence.
Qed.

Lemma cache_entries_are_kept_witness :
  exists v,
    _cache (fnmatchcase (str "x") (str "a*") initial_world).2 !! (str "a*") = Some v
    /\ _cache (filter ntpath [str "y"] (str "B?")
                (fnmatchcase (str "x") (str "a*") initial_world).2).2 !! (str "a*")
       = Some v.
Proof.
  eexists. split; [by vm_compute|].
  refine (proj2 (proj2 (cache_entries_are_kept _ (str "a*") _ _)) ntpath _ _).
  by vm_compute.
Defined.

(** A pattern that is in [_cache] is not compiled again: the call leaves
    the state, and with it the count of [re.compile] calls, untouched and
    answers with the cached matcher. *)
Theorem cached_pattern_is_not_recompiled w name names pat v :
  _cache w !! pat = Some v ->
  fnmatchcase name pat w = (Return (match_ v name), w)
  /\ filter posixpath names pat w
     = (Return (List.filter (fun name => match_ v name) names), w).
Proof.
  intros Hpat. split.
  - rewrite fnmatchcase_run. by rewrite Hpat.
  - rewrite filter_run. cbv zeta. simpl normcase. by rewrite Hpat.
Qed.

Lemma cached_pattern_witness :
  exists v w,
    w = (fnmatchcase (str "abc") (str "ab?") initial_world).2
    /\ fnmatchcase (str "abd") (str "ab?") w = (Return (match_ v (str "abd")), w).
Proof.
  eexists. eexists. split; [reflexivity|].
  refine (proj1 (cached_pattern_is_not_recompiled _ (str "abd") [] (str "ab?") _ _)).
  by vm_compute.
Defined.

(** Once a call for a pattern has returned, the pattern is served from the
    cache. *)
Lemma call_after_return w name pat b name' :
  reachable w ->
  (fnmatchcase name pat w).1 = Return b ->
  let w1 := (fnmatchcase name pat w).2 in
  fnmatchcase name' pat w1 = (fnmatchcase_value name' pat, w1).
Proof.
  intros Hw Hret w1.
  assert (Hok1 : cache_ok w1) by (by apply fnmatchcase_eval, reachable_cache_ok).
  assert (Hin : exists v, _cache w1 !! pat = Some v).
  { subst w1. rewrite fnmatchcase_run in Hret |- *.
    destruct (_cache w !! pat) as [v|] eqn:Hpat; [by exists v|].
    destruct (compiled_of pat) as [c| |]; simpl in *; [|done..].
    exists c. by rewrite lookup_insert_eq. }
  destruct Hin as [v Hv]. rewrite fnmatchcase_run, Hv.
  unfold fnmatchcase_value. by rewrite (Hok1 _ _ Hv).
Qed.

(** After a call of [fnmatchcase] that returned, in a state the module can
    be in, any further call for the same pattern changes nothing in the
    state and gives the value the pattern and the name determine. *)
Theorem second_call_uses_the_cache w name pat b name' :
  reachable w ->
  (fnmatchcase name pat w).1 = Return b ->
  let w1 := (fnmatchcase name pat w).2 in
  fnmatchcase name' pat w1 = (fnmatchcase_value name' pat, w1).
Proof. apply call_after_return. Qed.

Lemma second_call_witness :
  let w1 := (fnmatchcase (str "abc") (str "a*") initial_world).2 in
  fnmatchcase (str "a/b") (str "a*") w1 = (fnmatchcase_value (str "a/b") (str "a*"), w1).
Proof.
  apply (second_call_uses_the_cache initial_world (str "abc") (str "a*") true (str "a/b")).
  - constructor.
  - reflexivity.
Defined.

(** A pattern that [re.compile] rejects is never put in [_cache]: in a
    state the module can be in, the call raises [re.error], leaves
    [_cache] as it was and has called [re.compile] once, so the next call
    for that pattern compiles, and fails, again. *)
Theorem rejected_pattern_is_not_cached w name pat :
  reachable w ->
  compiled_of pat = Raise re_error ->
  fnmatchcase name pat w
  = (Raise re_error, World (_cache w) (S (compilations w)))
  /\ _cache w !! pat = None
  /\ forall name',
       fnmatchcase name' pat (fnmatchcase name pat w).2
       = (Raise re_error, World (_cache w) (S (S (compilations w)))).
Proof.
  intros Hw Hbad. pose proof (reachable_cache_ok w Hw) as Hok.
  assert (Hnone : _cache w !! pat = None).
  { destruct (_cache w !! pat) as [v|] eqn:Hpat; [|done].
    rewrite (Hok _ _ Hpat) in Hbad. done. }
  assert (Hrun : forall n name0,
            fnmatchcase name0 pat (World (_cache w) n)
            = (Raise re_error, World (_cache w) (S n))).
  { intros n name0. rewrite fnmatchcase_run. simpl. by rewrite Hnone, Hbad. }
  assert (Hw0 : w = World (_cache w) (compilations w)) by (by destruct w).
  split; [rewrite Hw0 at 1; apply Hrun|]. split; [done|].
  intros name'. rewrite Hw0 at 1. rewrite Hrun. simpl. apply Hrun.
Qed.

Lemma rejected_pattern_witness :
  fnmatchcase (str "a") (str "[z-a]") initial_world
  = (Raise re_error, World (_cache initial_world) (S (compilations initial_world)))
  /\ _cache initial_world !! (str "[z-a]") = None
  /\ forall name',
       fnmatchcase name' (str "[z-a]")
         (fnmatchcase (str "a") (str "[z-a]") initial_world).2
       = (Raise re_error,
          World (_cache initial_world) (S (S (compilations initial_world)))).
Proof.
  apply (rejected_pattern_is_not_cached initial_world (str "a") (str "[z-a]")).
  - constructor.
  - reflexivity.
Defined.

(** [fnmatch] keeps its matcher under the lower-cased pattern: after a
    call that returned, a call of [fnmatch] for any pattern with the same
    lower-cased text, or of [fnmatchcase] for the lower-cased pattern
    itself, changes nothing in the state. *)
Theorem fnmatch_caches_the_lowered_pattern w name pat b name' pat' :
  reachable w ->
  (fnmatch name pat w).1 = Return b ->
  lower pat' = lower pat ->
  let w1 := (fnmatch name pat w).2 in
  fnmatch name' pat' w1 = (fnmatchcase_value (lower name') (lower pat), w1)
  /\ fnmatchcase name' (lower pat) w1 = (fnmatchcase_value name' (lower pat), w1).
Proof.
  intros Hw Hret Hlow w1. unfold fnmatch in *. rewrite Hlow. split.
  - by apply (call_after_return w (lower name) (lower pat) b).
  - by apply (call_after_return w (lower name) (lower pat) b).
Qed.

Lemma fnmatch_caches_witness :
  let w1 := (fnmatch (str "README") (str "Read*") initial_world).2 in
  fnmatch (str "ReadMe.txt") (str "READ*") w1
  = (fnmatchcase_value (lower (str "ReadMe.txt")) (lower (str "Read*")), w1)
  /\ fnmatchcase (str "ReadMe.txt") (lower (str "Read*")) w1
     = (fnmatchcase_value (str "ReadMe.txt") (lower (str "Read*")), w1).
Proof.
  apply (fnmatch_caches_the_lowered_pattern initial_world (str "README") (str "Read*")
           true (str "ReadMe.txt") (str "READ*")).
  - constructor.
  - reflexivity.
  - reflexivity.
Defined.

End cache_properties.

(** ** Further properties: the matcher and the parser, piece by piece *)

Section piece_facts.
Import re my_fnmatch.

Lemma matches_here_repeat_cons i p c s :
  matches_here (MAX_REPEAT i :: p) (c :: s)
  = (item_matches i c && matches_here (MAX_REPEAT i :: p) s)
    || matches_here p (c :: s).
Proof. reflexivity. Qed.

Lemma matches_here_repeat_nil i p :
  matches_here (MAX_REPEAT i :: p) [] = matches_here p [].
Proof. reflexivity. Qed.

(** A repeat matches some run of characters its item accepts, and the rest
    of the pattern matches what follows the run. *)
Lemma matches_here_repeat i p s :
  matches_here (MAX_REPEAT i :: p) s = true
  <-> exists run s', s = run ++ s'
                     /\ forallb (item_matches i) run = true
                     /\ matches_here p s' = true.
Proof.
  induction s as [|c s IH].
  - rewrite matches_here_repeat_nil. split.
    + intros H. by exists [], [].
    + intros (run & s' & Heq & _ & H). symmetry in Heq.
      apply app_eq_nil in Heq as [_ ->]. done.
  - rewrite matches_here_repeat_cons, orb_true_iff, andb_true_iff, IH. split.
    + intros [[Hc (run & s' & -> & Hrun & H)]|H].
      * exists (c :: run), s'. simpl. by rewrite Hc, Hrun.
      * by exists [], (c :: s).
    + intros (run & s' & Heq & Hrun & H). destruct run as [|d run].
      * simpl in Heq. subst s'. by right.
      * simpl in Heq, Hrun. injection Heq as <- ->.
        apply andb_prop in Hrun as [Hc Hrun]. left. split; [done|].
        by exists run, s'.
Qed.

(** Literal items consume exactly their characters. *)
Lemma matches_here_literal_prefix pre p s :
  matches_here (map (fun c => Once (LITERAL c)) pre ++ p) s = true
  <-> exists s', s = pre ++ s' /\ matches_here p s' = true.
Proof.
  revert s. induction pre as [|c pre IH]; intros s; simpl.
  - split; [intros H; by exists s|]. by intros (s' & -> & H).
  - destruct s as [|d s].
    + split; [done|]. by intros (s' & ? & _).
    + rewrite andb_true_iff, is_char_eq, IH. split.
      * intros [-> (s' & -> & H)]. by exists s'.
      * intros (s' & [= -> ->] & H). split; [done|]. by exists s'.
Qed.

Lemma repeat_last_prepend sub0 sub :
  sub <> [] ->
  repeat_last (sub0 ++ sub) = r ← repeat_last sub; Return (sub0 ++ r).
Proof.
  intros Hne. unfold repeat_last. rewrite rev_app_distr.
  destruct (rev sub) as [|last before] eqn:Hrev.
  { apply (f_equal (@rev op)) in Hrev. rewrite rev_involutive in Hrev. done. }
  cbn [app]. destruct last as [i| |]; rsimpl; [|done..].
  by rewrite rev_app_distr, rev_involutive, <- app_assoc.
Qed.

Lemma repeat_last_nonempty sub r : repeat_last sub = Return r -> r <> [].
Proof.
  unfold repeat_last. destruct (rev sub) as [|[i| |] before]; try done.
  intros [= <-]. by destruct (rev before).
Qed.

(** Items already parsed are only carried along, as long as a [*] finds
    an item of the current run to repeat. *)
Lemma _parse_prepend fuel :
  forall source sub0 sub,
    (sub <> [] \/ match source with t :: _ => is_tok t "*" = false | [] => True end) ->
    _parse fuel source (sub0 ++ sub)
    = r ← _parse fuel source sub; Return (sub0 ++ r).
Proof.
  induction fuel as [|fuel IH]; intros source sub0 sub Hcond.
  { by destruct source. }
  destruct source as [|this source1]; [done|].
  assert (Hnext : forall x src, _parse fuel src (sub0 ++ sub ++ [x])
                    = r ← _parse fuel src (sub ++ [x]); Return (sub0 ++ r)).
  { intros x src. apply IH. left. by destruct sub. }
  rewrite !_parse_step. destruct this as [c|c].
  - destruct (is_char c "[").
    { destruct (match source1 with [] => _ | _ => _ end) as [negate source2].
      destruct (parse_set source2 []) as [[set source3]| |]; rsimpl; [|done..].
      rewrite <- app_assoc. apply Hnext. }
    destruct (is_char c "*") eqn:Hstar.
    { assert (Hne : sub <> []).
      { destruct Hcond as [?|H]; [done|]. simpl in H. congruence. }
      rewrite repeat_last_prepend by done.
      destruct (repeat_last sub) as [sub'| |] eqn:Hrep; rsimpl; [|done..].
      apply repeat_last_nonempty in Hrep.
      destruct source1 as [|t rest]; [apply IH; by left|].
      destruct (is_tok t "?"); [done|]. apply IH. by left. }
    destruct (is_char c "."); [rewrite <- app_assoc; apply Hnext|].
    destruct (is_char c "$"); [rewrite <- app_assoc; apply Hnext|].
    destruct (existsb _ _); [done|]. rewrite <- app_assoc. apply Hnext.
  - destruct (parse_escape c source1) as [[code source2]| |]; rsimpl; [|done..].
    rewrite <- app_assoc. apply Hnext.
Qed.

Lemma parse_from_prepend source sub0 :
  head_item source ->
  parse_from source sub0 = r ← parse_from source []; Return (sub0 ++ r).
Proof.
  intros Hhead. unfold parse_from.
  rewrite <- (app_nil_r sub0) at 1. apply _parse_prepend. right.
  destruct source as [|t source]; [done|]. apply Hhead.
Qed.

(** What [translate] produces starts with no [*] and no [?]. *)
Lemma translate_from_first rest ms r :
  translate_from rest ms [] = Return r ->
  exists c r', r = c :: r' /\ is_char c "*" = false /\ is_char c "?" = false.
Proof.
  assert (Hpiece : forall rest' ms' (piece : pystr) c piece',
            piece = c :: piece' ->
            is_char c "*" = false -> is_char c "?" = false ->
            translate_from rest' ms' ([] ++ piece) = Return r ->
            exists c r', r = c :: r' /\ is_char c "*" = false /\ is_char c "?" = false).
  { intros rest' ms' piece c piece' -> H1 H2. rewrite translate_from_res.
    destruct (translate_from rest' ms' []) as [r0| |]; rsimpl; [|done..].
    intros [= <-]. by exists c, (piece' ++ r0). }
  destruct rest as [|c rest].
  { rewrite translate_from_nil. intros [= <-]. by exists "$"%char, []. }
  destruct (is_wildcard c) eqn:Hw; [unfold is_wildcard in Hw|].
  - destruct (is_char c "*") eqn:H1.
    { apply is_char_eq in H1 as ->. rewrite translate_from_star.
      destruct (skip_stars rest ms) as [rest' [|]].
      - by apply (Hpiece rest' true (str ".*") "."%char (str "*")).
      - by apply (Hpiece rest' false (str "[^/]*") "["%char (str "^/]*")). }
    destruct (is_char c "?") eqn:H2.
    { apply is_char_eq in H2 as ->. rewrite translate_from_question.
      by apply (Hpiece rest ms (str ".") "."%char []). }
    simpl in Hw. apply is_char_eq in Hw as ->. rewrite translate_from_open.
    cbv zeta. destruct (length rest <=? class_end rest).
    { by apply (Hpiece rest ms (str "\[") backslash (str "[")). }
    destruct (class_stuff _) as [stuff| |]; rsimpl; [|done..].
    by apply (Hpiece _ ms (str "[" ++ stuff ++ str "]") "["%char (stuff ++ str "]")).
  - rewrite translate_from_other by done. unfold escape. cbn [flat_map].
    rewrite app_nil_r. unfold escape_char.
    destruct (is_alnum c) eqn:Halnum.
    + apply (Hpiece rest ms [c] c []); [done|by apply alnum_differs..].
    + destruct (is_char c "000").
      * by apply (Hpiece rest ms (str "\000") backslash (str "000")).
      * by apply (Hpiece rest ms [backslash; c] backslash [c]).
Qed.

Lemma tokenize_head c r toks :
  is_char c "*" = false -> is_char c "?" = false ->
  tokenize (c :: r) = Return toks -> head_item toks.
Proof.
  intros H1 H2. simpl. destruct (is_char c backslash).
  - destruct r as [|e r]; [done|].
    destruct (tokenize r); rsimpl; [|done..]. by intros [= <-].
  - destruct (tokenize r); rsimpl; [|done..]. intros [= <-]. by simpl.
Qed.

(** The translation of a pattern, with its tokens. *)
Lemma translation_tokens rest ms :
  exists r toks,
    translate_from rest ms [] = Return r
    /\ tokenize r = Return toks
    /\ head_item toks.
Proof.
  destruct (translate_parses false rest ltac:(done) ms) as (r & toks & Hr & Htok & _).
  exists r, toks. split; [done|]. split; [done|].
  destruct (translate_from_first rest ms r Hr) as (c & r' & -> & H1 & H2).
  by apply (tokenize_head c r').
Qed.

(** A pattern whose translation is a piece of text followed by the
    translation of [rest] compiles to the items of the piece followed by
    the compiled [rest]. *)
Lemma compiled_of_piece pat rest ms (piece : pystr) ptoks (ops : pattern) :
  (forall res, translate_from pat false res = translate_from rest ms (res ++ piece)) ->
  (forall res, translate_from rest ms res = translate_from rest false res) ->
  (forall s, tokenize (piece ++ s) = ts ← tokenize s; Return (ptoks ++ ts)) ->
  (forall toks, head_item toks -> parse_from (ptoks ++ toks) [] = parse_from toks ops) ->
  compiled_of pat = c ← compiled_of rest; Return (ops ++ c).
Proof.
  intros Htr Hms Htok Hparse. unfold compiled_of, translate.
  rewrite !(translate_loop_fuel _ _ _ _ (le_n _)).
  rewrite Htr, Hms, translate_from_res.
  destruct (translation_tokens rest false) as (r & toks & -> & Hr & Hhead). rsimpl.
  unfold parse. rewrite Htok, Hr. rsimpl.
  change (_parse (length ?s) ?s []) with (parse_from s []).
  rewrite Hparse by done. by apply parse_from_prepend.
Qed.

End piece_facts.

(** ** Further properties: what each token of a pattern consumes *)

Section token_properties.
Import re my_fnmatch.

Lemma compiled_of_literal_cons c pat :
  is_wildcard c = false ->
  compiled_of (c :: pat) = p ← compiled_of pat; Return ([Once (LITERAL c)] ++ p).
Proof.
  intros Hc.
  apply (compiled_of_piece (c :: pat) pat false (escape [c]) (escape_tokens c)).
  - intros res. by apply translate_from_other.
  - done.
  - intros s. unfold escape. cbn [flat_map]. rewrite app_nil_r.
    apply tokenize_escape_char.
  - intros toks _. apply parse_from_literal.
Qed.

Lemma compiled_of_literal_app pre pat :
  literal_pattern pre = true ->
  compiled_of (pre ++ pat)
  = p ← compiled_of pat; Return (map (fun c => Once (LITERAL c)) pre ++ p).
Proof.
  induction pre as [|c pre IH]; intros Hlit.
  - simpl. by destruct (compiled_of pat).
  - simpl in Hlit. apply andb_prop in Hlit as [Hc Hlit]. apply negb_true_iff in Hc.
    cbn [app]. rewrite compiled_of_literal_cons, IH by done.
    by destruct (compiled_of pat).
Qed.

Lemma compiled_of_question_cons pat :
  compiled_of ("?"%char :: pat) = p ← compiled_of pat; Return ([Once ANY] ++ p).
Proof.
  apply (compiled_of_piece _ pat false (str ".") [Ch "."]).
  - intros res. apply translate_from_question.
  - done.
  - intros s. simpl. by destruct (tokenize s).
  - intros toks _. apply parse_from_dot.
Qed.

Lemma head_item_plain toks : head_item toks -> head_plain toks.
Proof. destruct toks as [|t toks]; [done|]. by intros [? _]. Qed.

Lemma skip_stars_none rest ms :
  starts_with_star rest = false -> skip_stars rest ms = (rest, ms).
Proof. destruct rest as [|c rest]; [done|]. simpl. by intros ->. Qed.

Lemma skip_stars_repeat k rest ms :
  starts_with_star rest = false ->
  skip_stars (List.repeat "*"%char k ++ rest) ms
  = (rest, match k with O => ms | S _ => true end).
Proof.
  intros Hrest. revert ms. induction k as [|k IH]; intros ms.
  - by apply skip_stars_none.
  - simpl. rewrite IH. by destruct k.
Qed.

Lemma compiled_of_star_cons pat :
  starts_with_star pat = false ->
  compiled_of ("*"%char :: pat)
  = p ← compiled_of pat;
    Return ([MAX_REPEAT (IN true [SetLiteral "/"])] ++ p).
Proof.
  intros Hpat.
  apply (compiled_of_piece _ pat false (str "[^/]*")
           [Ch "["; Ch "^"; Ch "/"; Ch "]"; Ch "*"]).
  - intros res. rewrite translate_from_star. by rewrite skip_stars_none.
  - done.
  - intros s. simpl. by destruct (tokenize s).
  - intros toks Hhead. cbn [app]. rewrite (parse_from_set true) by done.
    cbn [parse_set is_tok is_char class_code]. simpl. rsimpl.
    apply (parse_from_star toks []).
    destruct toks as [|t toks]; [done|]. apply Hhead.
Qed.

(** Without a star left in the pattern, [multistars] is not read. *)
Lemma translate_from_star_free rest :
  no_char "*" rest = true ->
  forall ms res, translate_from rest ms res = translate_from rest false res.
Proof.
  induction rest as [rest IH] using pystr_length_ind. intros Hfree ms res.
  destruct rest as [|c rest]; [done|].
  simpl in Hfree. apply andb_prop in Hfree as [Hc Hfree]. apply negb_true_iff in Hc.
  assert (IH' : forall rest', length rest' <= length rest ->
            no_char "*" rest' = true ->
            forall res', translate_from rest' ms res' = translate_from rest' false res').
  { intros rest' Hlen Hfree' res'. apply IH; [simpl; lia|done]. }
  destruct (is_char c "?") eqn:H2.
  { apply is_char_eq in H2 as ->. rewrite !translate_from_question. by apply IH'. }
  destruct (is_char c "[") eqn:H3.
  { apply is_char_eq in H3 as ->. rewrite !translate_from_open. cbv zeta.
    destruct (length rest <=? class_end rest); [by apply IH'|].
    destruct (class_stuff _) as [stuff| |]; rsimpl; [|done..].
    apply IH'; [rewrite length_skipn; lia|].
    unfold no_char in *. rewrite <- (firstn_skipn (S (class_end rest)) rest) in Hfree.
    rewrite forallb_app in Hfree. by apply andb_prop in Hfree as [_ ?]. }
  rewrite !translate_from_other by (unfold is_wildcard; by rewrite Hc, H2, H3).
  by apply IH'.
Qed.

Lemma compiled_of_stars_cons k pat :
  no_char "*" pat = true ->
  compiled_of ("*"%char :: "*"%char :: List.repeat "*"%char k ++ pat)
  = p ← compiled_of pat; Return ([MAX_REPEAT ANY] ++ p).
Proof.
  intros Hfree.
  assert (Hstart : starts_with_star pat = false).
  { destruct pat as [|c pat]; [done|]. simpl in *.
    apply andb_prop in Hfree as [Hc _]. by apply negb_true_iff in Hc. }
  apply (compiled_of_piece _ pat true (str ".*") [Ch "."; Ch "*"]).
  - intros res. rewrite translate_from_star.
    change ("*"%char :: List.repeat "*"%char k ++ pat)
      with (List.repeat "*"%char (S k) ++ pat).
    by rewrite skip_stars_repeat.
  - intros res. by apply translate_from_star_free.
  - intros s. simpl. by destruct (tokenize s).
  - intros toks Hhead. cbn [app]. rewrite parse_from_dot.
    apply (parse_from_star toks []).
    destruct toks as [|t toks]; [done|]. apply Hhead.
Qed.

(** The value of [fnmatchcase] through the compiled pattern. *)
Lemma fnmatchcase_value_true name pat :
  fnmatchcase_value name pat = Return true
  <-> exists p, compiled_of pat = Return p /\ matches_here p name = true.
Proof.
  unfold fnmatchcase_value, match_. destruct (compiled_of pat) as [p| |]; rsimpl.
  - split; [intros [= H]; by exists p|]. intros (p' & [= <-] & ->). done.
  - split; [done|]. by intros (? & ? & _).
  - split; [done|]. by intros (? & ? & _).
Qed.

(** When a pattern compiles to some items followed by the compiled rest of
    the pattern, a candidate matches it exactly when the items match a
    prefix of the candidate and the rest of the pattern matches what the
    items leave. *)
Lemma fnmatchcase_value_piece pat rest (ops : pattern) (P : pystr -> pystr -> Prop) :
  compiled_of pat = (p ← compiled_of rest; Return (ops ++ p)) ->
  (forall p s, matches_here (ops ++ p) s = true
               <-> exists s', P s s' /\ matches_here p s' = true) ->
  forall name,
    fnmatchcase_value name pat = Return true
    <-> exists name', P name name' /\ fnmatchcase_value name' rest = Return true.
Proof.
  intros Hc Hops name. rewrite fnmatchcase_value_true, Hc. split.
  - intros (p & Hp & Hm).
    destruct (compiled_of rest) as [p0| |] eqn:Hrest; rsimpl; try done.
    injection Hp as <-. apply Hops in Hm as (s' & HP & Hm).
    exists s'. split; [done|]. apply fnmatchcase_value_true. rewrite Hrest. eauto.
  - intros (name' & HP & Hv). apply fnmatchcase_value_true in Hv as (p & Hp & Hm).
    rewrite Hp. rsimpl. eexists. split; [reflexivity|].
    apply Hops. eauto.
Qed.

Lemma fnmatchcase_value_raises_piece pat rest (ops : pattern) :
  compiled_of pat = (p ← compiled_of rest; Return (ops ++ p)) ->
  forall name name',
    fnmatchcase_value name pat = Raise re_error
    <-> fnmatchcase_value name' rest = Raise re_error.
Proof.
  intros Hc name name'. unfold fnmatchcase_value. rewrite Hc.
  destruct (compiled_of rest); rsimpl; split; congruence.
Qed.

Lemma no_char_spec c s : no_char c s = true <-> ~ In c s.
Proof.
  unfold no_char. rewrite forallb_forall. split.
  - intros H Hin. specialize (H c Hin). by rewrite is_char_refl in H.
  - intros H d Hin. apply negb_true_iff, is_char_neq. by intros ->.
Qed.

End token_properties.

Section token_theorems.
Import re my_fnmatch.

(** Literal characters at the head of a pattern must head the candidate,
    and matching goes on after them: in a state the module can be in,
    [fnmatchcase(name, pre + pat)], for [pre] without wildcards, is true
    exactly when [name] is [pre] followed by a candidate that [pat]
    matches, and it raises [re.error] exactly when [pat] alone does. *)
Theorem literal_prefix_is_consumed w pre pat name :
  reachable w ->
  literal_pattern pre = true ->
  ((fnmatchcase name (pre ++ pat) w).1 = Return true
   <-> exists name', name = pre ++ name'
                     /\ (fnmatchcase name' pat w).1 = Return true)
  /\ ((fnmatchcase name (pre ++ pat) w).1 = Raise re_error
      <-> (fnmatchcase name pat w).1 = Raise re_error).
Proof.
  intros Hw Hlit. pose proof (compiled_of_literal_app pre pat Hlit) as Hc. split.
  - rewrite fnmatchcase_reachable by done.
    rewrite (fnmatchcase_value_piece _ _ _ (fun s s' => s = pre ++ s') Hc).
    + split; intros (name' & ? & H); exists name'; split; try done.
      * by rewrite fnmatchcase_reachable.
      * by rewrite fnmatchcase_reachable in H.
    + intros p s. apply matches_here_literal_prefix.
  - rewrite !fnmatchcase_reachable by done.
    by apply (fnmatchcase_value_raises_piece _ _ _ Hc).
Qed.

Lemma literal_prefix_witness :
  (fnmatchcase (str "src/a.py") (str "src/" ++ str "*.py") initial_world).1
  = Return true.
Proof.
  apply (proj1 (literal_prefix_is_consumed initial_world (str "src/") (str "*.py")
                  (str "src/a.py") reach_initial eq_refl)).
  exists (str "a.py"). split; reflexivity.
Defined.

(** A [?] at the head of a pattern consumes one character of the
    candidate, any but a newline, and matching goes on after it. *)
Theorem question_mark_consumes_one_character w pat name :
  reachable w ->
  (fnmatchcase name ("?"%char :: pat) w).1 = Return true
  <-> exists c name', name = c :: name'
                      /\ c <> newline
                      /\ (fnmatchcase name' pat w).1 = Return true.
Proof.
  intros Hw. rewrite fnmatchcase_reachable by done.
  rewrite (fnmatchcase_value_piece _ _ _
             (fun s s' => exists c, s = c :: s' /\ c <> newline)
             (compiled_of_question_cons pat)).
  - split.
    + intros (name' & (c & -> & Hc) & H). exists c, name'.
      by rewrite fnmatchcase_reachable.
    + intros (c & name' & -> & Hc & H). exists name'. split; [by exists c|].
      by rewrite fnmatchcase_reachable in H.
  - intros p s. simpl. destruct s as [|c s].
    + split; [done|]. by intros (s' & (c & ? & _) & _).
    + rewrite andb_true_iff, negb_true_iff, is_char_neq. split.
      * intros [Hc H]. exists s. split; [by exists c|done].
      * intros (s' & (d & Heq & Hd) & Hm). injection Heq as -> ->. done.
Qed.

Lemma question_mark_witness :
  (fnmatchcase (str "a/c") ("?"%char :: str "/c") initial_world).1 = Return true.
Proof.
  apply (proj2 (question_mark_consumes_one_character initial_world (str "/c")
                  (str "a/c") reach_initial)).
  exists "a"%char, (str "/c"). split; [reflexivity|]. split; [discriminate|reflexivity].
Defined.

Lemma forallb_not_slash run :
  forallb (item_matches (IN true [SetLiteral "/"])) run = true <-> ~ In "/"%char run.
Proof.
  rewrite <- no_char_spec. unfold no_char. simpl.
  induction run as [|c run IH]; [done|]. simpl.
  by rewrite orb_false_r, !andb_true_iff, IH.
Qed.

Lemma forallb_not_newline run :
  forallb (item_matches ANY) run = true <-> ~ In newline run.
Proof. by rewrite <- no_char_spec. Qed.

(** A single [*] at the head of a pattern, when no other star follows it
    directly, consumes a run of characters without [/], possibly empty,
    and matching goes on after the run. *)
Theorem single_star_stops_at_slash w pat name :
  reachable w ->
  starts_with_star pat = false ->
  (fnmatchcase name ("*"%char :: pat) w).1 = Return true
  <-> exists run name', name = run ++ name'
                        /\ ~ In "/"%char run
                        /\ (fnmatchcase name' pat w).1 = Return true.
Proof.
  intros Hw Hpat. rewrite fnmatchcase_reachable by done.
  rewrite (fnmatchcase_value_piece _ _ _
             (fun s s' => exists run, s = run ++ s' /\ ~ In "/"%char run)
             (compiled_of_star_cons pat Hpat)).
  - split.
    + intros (name' & (run & -> & Hrun) & H). exists run, name'.
      by rewrite fnmatchcase_reachable.
    + intros (run & name' & -> & Hrun & H). exists name'. split; [by exists run|].
      by rewrite fnmatchcase_reachable in H.
  - intros p s. cbn [app]. rewrite matches_here_repeat. split.
    + intros (run & s' & -> & Hrun & H). exists s'. split; [|done].
      exists run. split; [done|]. by apply forallb_not_slash.
    + intros (s' & (run & -> & Hrun) & H). exists run, s'.
      split; [done|]. split; [|done]. by apply forallb_not_slash.
Qed.

Lemma single_star_witness :
  (fnmatchcase (str "main.py") ("*"%char :: str ".py") initial_world).1 = Return true.
Proof.
  apply (proj2 (single_star_stops_at_slash initial_world (str ".py")
                  (str "main.py") reach_initial eq_refl)).
  exists (str "main"), (str ".py"). split; [reflexivity|]. split; [|reflexivity].
  simpl. intros [H|[H|[H|[H|[]]]]]; discriminate.
Defined.

(** A run of two or more [*] at the head of a pattern that has no other
    star consumes a run of characters without newline, [/] included, and
    matching goes on after the run; the length of the run of stars does
    not matter. *)
Theorem star_run_crosses_slashes w k pat name :
  reachable w ->
  no_char "*" pat = true ->
  (fnmatchcase name ("*"%char :: "*"%char :: List.repeat "*"%char k ++ pat) w).1
  = Return true
  <-> exists run name', name = run ++ name'
                        /\ ~ In newline run
                        /\ (fnmatchcase name' pat w).1 = Return true.
Proof.
  intros Hw Hpat. rewrite fnmatchcase_reachable by done.
  rewrite (fnmatchcase_value_piece _ _ _
             (fun s s' => exists run, s = run ++ s' /\ ~ In newline run)
             (compiled_of_stars_cons k pat Hpat)).
  - split.
    + intros (name' & (run & -> & Hrun) & H). exists run, name'.
      by rewrite fnmatchcase_reachable.
    + intros (run & name' & -> & Hrun & H). exists name'. split; [by exists run|].
      by rewrite fnmatchcase_reachable in H.
  - intros p s. cbn [app]. rewrite matches_here_repeat. split.
    + intros (run & s' & -> & Hrun & H). exists s'. split; [|done].
      exists run. split; [done|]. by apply forallb_not_newline.
    + intros (s' & (run & -> & Hrun) & H). exists run, s'.
      split; [done|]. split; [|done]. by apply forallb_not_newline.
Qed.

Lemma star_run_witness :
  (fnmatchcase (str "a/b/c.py")
     ("*"%char :: "*"%char :: List.repeat "*"%char 1 ++ str ".py") initial_world).1
  = Return true.
Proof.
  apply (proj2 (star_run_crosses_slashes initial_world 1 (str ".py")
                  (str "a/b/c.py") reach_initial eq_refl)).
  exists (str "a/b/c"), (str ".py"). split; [reflexivity|]. split; [|reflexivity].
  simpl. intros [H|[H|[H|[H|[H|[]]]]]]; discriminate.
Defined.

Lemma slashes_app s t : slashes (s ++ t) = slashes s + slashes t.
Proof. unfold slashes. by rewrite List.filter_app, length_app. Qed.

Lemma slashes_none run : ~ In "/"%char run -> slashes run = 0.
Proof.
  intros H. apply no_char_spec in H. unfold slashes, no_char in *.
  induction run as [|c run IH]; [done|]. simpl in *.
  apply andb_prop in H as [Hc H]. apply negb_true_iff in Hc. rewrite Hc. auto.
Qed.

Lemma lone_stars_value pat :
  lone_stars pat = true ->
  forall name, fnmatchcase_value name pat = Return true -> slashes name = slashes pat.
Proof.
  induction pat as [|c pat IH]; intros Hpat name.
  - rewrite fnmatchcase_value_true. intros (p & Hp & Hm).
    rewrite (compiled_of_literal []) in Hp by done. injection Hp as <-.
    apply (matches_here_literals [] name) in Hm as [-> | ->]; done.
  - simpl in Hpat. apply andb_prop in Hpat as [Hpat Hrest].
    apply andb_prop in Hpat as [Hpat Hstar]. apply andb_prop in Hpat as [Hq Hb].
    apply negb_true_iff in Hq, Hb, Hstar.
    destruct (is_char c "*") eqn:Hc.
    + apply is_char_eq in Hc as ->. simpl in Hstar.
      rewrite (fnmatchcase_value_piece _ _ _
                 (fun s s' => exists run, s = run ++ s' /\ ~ In "/"%char run)
                 (compiled_of_star_cons pat Hstar)).
      * intros (name' & (run & -> & Hrun) & H).
        rewrite slashes_app, (slashes_none run Hrun), (IH Hrest name' H). done.
      * intros p s. cbn [app]. rewrite matches_here_repeat. split.
        -- intros (run & s' & -> & Hrun & H). exists s'. split; [|done].
           exists run. split; [done|]. by apply forallb_not_slash.
        -- intros (s' & (run & -> & Hrun) & H). exists run, s'.
           split; [done|]. split; [|done]. by apply forallb_not_slash.
    + assert (Hw : is_wildcard c = false) by (unfold is_wildcard; by rewrite Hc, Hq, Hb).
      rewrite (fnmatchcase_value_piece _ _ _ (fun s s' => s = [c] ++ s')
                 (compiled_of_literal_cons c pat Hw)).
      * intros (name' & -> & H).
        change (c :: pat) with ([c] ++ pat).
        by rewrite !slashes_app, (IH Hrest name' H).
      * intros p s. apply (matches_here_literal_prefix [c]).
Qed.

(** A pattern made of literal characters and of stars that stand alone
    (no [?], no [[], no two stars in a row) only matches candidates with
    as many [/] as the pattern has: such a pattern never matches across a
    directory level. *)
Theorem lone_stars_keep_the_depth w pat name :
  reachable w ->
  lone_stars pat = true ->
  (fnmatchcase name pat w).1 = Return true ->
  slashes name = slashes pat.
Proof.
  intros Hw Hpat. rewrite fnmatchcase_reachable by done. by apply lone_stars_value.
Qed.

Lemma lone_stars_witness : slashes (str "src/main.py") = slashes (str "*/*.py").
Proof.
  apply (lone_stars_keep_the_depth initial_world (str "*/*.py") (str "src/main.py")).
  - constructor.
  - reflexivity.
  - reflexivity.
Defined.

End token_theorems.

(** ** Further properties: character classes *)

Section class_properties.
Import re my_fnmatch.
















End class_properties.

Section range_properties.
Import re my_fnmatch.












End range_properties.

(** ** Further properties: [filter] *)

Section filter_properties.
Import re my_fnmatch.

Lemma filter_sublist {A} (f : A -> bool) (l : list A) : sublist (List.filter f l) l.
Proof.
  induction l as [|a l IH]; simpl; [constructor|].
  destruct (f a); by constructor.
Qed.

Lemma filter_filter {A} (f : A -> bool) (l : list A) :
  List.filter f (List.filter f l) = List.filter f l.
Proof.
  induction l as [|a l IH]; simpl; [done|].
  destruct (f a) eqn:Hfa; simpl; [|done]. by rewrite Hfa, IH.
Qed.

(** Under any [os.path], in a state the module can be in, one of two
    things happens.  Either [fnmatchcase] returns for the normalised
    pattern, whatever the name, and [filter(names, pat)] returns the names
    whose normalised form (the name itself on POSIX) the normalised
    pattern matches: the original names, a subsequence of [names].  Or
    [fnmatchcase] raises [re.error] for the normalised pattern and
    [filter] raises [re.error] too. *)
Theorem filter_selects_by_normalised_name w os names pat :
  reachable w ->
  ((forall name, exists b, (fnmatchcase name (normcase os pat) w).1 = Return b)
   /\ exists l,
        (filter os names pat w).1 = Return l
        /\ l = List.filter
                 (fun name =>
                    returns_true
                      (fnmatchcase
                         (if is_posixpath os then name else normcase os name)
                         (normcase os pat) w).1)
                 names
        /\ sublist l names)
  \/ ((forall name, (fnmatchcase name (normcase os pat) w).1 = Raise re_error)
      /\ (filter os names pat w).1 = Raise re_error).
Proof.
  intros Hw. pose proof (reachable_cache_ok w Hw) as Hok.
  destruct (filter_eval w os names pat Hok) as (-> & _).
  unfold filter_value.
  destruct (compiled_of_outcome (normcase os pat)) as [Hc|[c Hc]]; rewrite Hc; rsimpl.
  - right. split; [|done]. intros name. rewrite fnmatchcase_reachable by done.
    unfold fnmatchcase_value. by rewrite Hc.
  - left. split.
    + intros name. rewrite fnmatchcase_reachable by done.
      unfold fnmatchcase_value. rewrite Hc. by eexists.
    + eexists. split; [reflexivity|]. split; [|apply filter_sublist].
      apply List.filter_ext. intros name. rewrite fnmatchcase_reachable by done.
      unfold fnmatchcase_value. rewrite Hc. rsimpl.
      by destruct (match_ c _).
Qed.

Lemma filter_selects_witness :
  (filter ntpath [str "Src/A.py"; str "doc/b"] (str "src/*.PY") initial_world).1
  = Return [str "Src/A.py"].
Proof.
  destruct (filter_selects_by_normalised_name initial_world ntpath
              [str "Src/A.py"; str "doc/b"] (str "src/*.PY") reach_initial)
    as [[_ (l & Hl & -> & _)]|[Hraise _]].
  - rewrite Hl. reflexivity.
  - specialize (Hraise []). discriminate Hraise.
Defined.

(** Filtering a second time with the same pattern changes nothing: the
    names [filter] returned all pass again. *)
Theorem filter_is_idempotent w os names pat l :
  reachable w ->
  (filter os names pat w).1 = Return l ->
  (filter os l pat (filter os names pat w).2).1 = Return l.
Proof.
  intros Hw. pose proof (reachable_cache_ok w Hw) as Hok.
  destruct (filter_eval w os names pat Hok) as (-> & Hok1 & _).
  destruct (filter_eval (filter os names pat w).2 os l pat Hok1) as (-> & _).
  unfold filter_value.
  destruct (compiled_of (normcase os pat)) as [c| |]; rsimpl; [|done..].
  intros [= <-]. by rewrite filter_filter.
Qed.

Lemma filter_is_idempotent_witness :
  (filter posixpath [str "abc"; str "abd"] (str "ab?")
     (filter posixpath [str "abc"; str "abd"; str "xyz"] (str "ab?")
        initial_world).2).1
  = Return [str "abc"; str "abd"].
Proof.
  apply (filter_is_idempotent initial_world posixpath
           [str "abc"; str "abd"; str "xyz"] (str "ab?") [str "abc"; str "abd"]).
  - constructor.
  - reflexivity.
Defined.

(** Filtering two lists one after the other gives what filtering their
    concatenation gives. *)
Theorem filter_distributes_over_append w os names1 names2 pat :
  reachable w ->
  (filter os (names1 ++ names2) pat w).1
  = (l1 ← (filter os names1 pat w).1;
     l2 ← (filter os names2 pat w).1;
     Return (l1 ++ l2)).
Proof.
  intros Hw. pose proof (reachable_cache_ok w Hw) as Hok.
  destruct (filter_eval w os (names1 ++ names2) pat Hok) as (-> & _).
  destruct (filter_eval w os names1 pat Hok) as (-> & _).
  destruct (filter_eval w os names2 pat Hok) as (-> & _).
  unfold filter_value.
  destruct (compiled_of (normcase os pat)) as [c| |]; rsimpl; [|done..].
  by rewrite List.filter_app.
Qed.

Lemma filter_distributes_witness :
  (filter posixpath ([str "abc"] ++ [str "xyz"; str "abd"]) (str "ab?")
     initial_world).1
  = (l1 ← (filter posixpath [str "abc"] (str "ab?") initial_world).1;
     l2 ← (filter posixpath [str "xyz"; str "abd"] (str "ab?") initial_world).1;
     Return (l1 ++ l2)).
Proof.
  apply (filter_distributes_over_append initial_world posixpath
           [str "abc"] [str "xyz"; str "abd"] (str "ab?")).
  constructor.
Defined.

End filter_properties.

(** ** Further properties: [translate] *)

Section translate_properties.
Import re my_fnmatch.

Lemma skip_stars_repeat_any k rest ms :
  skip_stars (List.repeat "*"%char (S k) ++ rest) ms = skip_stars rest true.
Proof.
  revert ms. induction k as [|k IH]; intros ms; [done|].
  change (List.repeat "*"%char (S (S k)) ++ rest)
    with ("*"%char :: List.repeat "*"%char (S k) ++ rest).
  cbn [skip_stars]. simpl is_char. cbv iota. apply IH.
Qed.

Lemma translate_of pat : translate pat = translate_from pat false [].
Proof. unfold translate. by apply translate_loop_fuel. Qed.

(** After literal text, a run of three or more stars is translated as a
    run of two: the number of stars beyond the second has no effect on the
    regular expression. *)
Theorem translate_collapses_star_runs pre k rest :
  literal_pattern pre = true ->
  translate (pre ++ "*"%char :: "*"%char :: List.repeat "*"%char k ++ rest)
  = translate (pre ++ "*"%char :: "*"%char :: rest).
Proof.
  intros Hpre. rewrite !translate_of, !translate_from_literal_prefix by done.
  rewrite !translate_from_star.
  change ("*"%char :: List.repeat "*"%char k ++ rest)
    with (List.repeat "*"%char (S k) ++ rest).
  change ("*"%char :: rest) with (List.repeat "*"%char 1 ++ rest).
  by rewrite !skip_stars_repeat_any.
Qed.

Lemma translate_collapses_witness :
  translate (str "a/" ++ "*"%char :: "*"%char :: List.repeat "*"%char 3 ++ str "/b")
  = translate (str "a/" ++ "*"%char :: "*"%char :: str "/b").
Proof. apply (translate_collapses_star_runs (str "a/") 3 (str "/b")). reflexivity. Defined.

(** [translate] returns, for every pattern, a regular expression that
    ends with the anchor [$], and that starts with the escaped text of any
    literal characters the pattern starts with. *)
Theorem translate_anchors_and_escapes pre pat :
  literal_pattern pre = true ->
  exists body,
    translate pat = Return (body ++ str "$")
    /\ translate (pre ++ pat) = Return (escape pre ++ body ++ str "$").
Proof.
  intros Hpre.
  assert (Hend : forall rest ms, exists body,
            translate_from rest ms [] = Return (body ++ str "$")).
  { induction rest as [rest IH] using pystr_length_ind. intros ms.
    assert (Hpiece : forall rest' ms' (piece : pystr),
              length rest' < length rest ->
              exists body, translate_from rest' ms' ([] ++ piece)
                           = Return (body ++ str "$")).
    { intros rest' ms' piece Hlen. destruct (IH rest' Hlen ms') as [body Hbody].
      exists (piece ++ body). rewrite translate_from_res, Hbody. rsimpl.
      cbn [app]. by rewrite <- app_assoc. }
    destruct rest as [|c rest]; [by exists []|].
    destruct (is_wildcard c) eqn:Hw; [unfold is_wildcard in Hw|].
    - destruct (is_char c "*") eqn:H1.
      { apply is_char_eq in H1 as ->. rewrite translate_from_star.
        pose proof (skip_stars_length rest ms) as Hlen.
        destruct (skip_stars rest ms) as [rest' ms']. simpl in Hlen.
        apply Hpiece. simpl. lia. }
      destruct (is_char c "?") eqn:H2.
      { apply is_char_eq in H2 as ->. rewrite translate_from_question.
        apply Hpiece. simpl. lia. }
      simpl in Hw. apply is_char_eq in Hw as ->. rewrite translate_from_open.
      cbv zeta. destruct (Nat.leb_spec (length rest) (class_end rest)) as [Hle|Hlt].
      { apply Hpiece. simpl. lia. }
      destruct (class_body_returns rest Hlt) as [stuff ->]. rsimpl.
      apply Hpiece. rewrite length_skipn. simpl. lia.
    - rewrite translate_from_other by done. apply Hpiece. simpl. lia. }
  destruct (Hend pat false) as [body Hbody]. exists body.
  rewrite !translate_of, translate_from_literal_prefix by done.
  split; [done|]. by rewrite translate_from_res, Hbody.
Qed.

Lemma translate_anchors_witness :
  exists body,
    translate (str "*.py") = Return (body ++ str "$")
    /\ translate (str "a.b/" ++ str "*.py") = Return (escape (str "a.b/") ++ body ++ str "$").
Proof. apply (translate_anchors_and_escapes (str "a.b/") (str "*.py")). reflexivity. Defined.

End translate_properties.
